(** * agentenv: the relational exporter of [internal/database/export.go]

    A shallow embedding of the exporter (dependency walker and script
    generator) together with the properties its specification states.

    - Go strings are byte strings: [string].
    - [interface{}] values delivered by the driver are the inductive [Value].
    - The engine is a record of the answers it gives to the four queries the
      exporter issues; the exporter's mutable fields and what it prints are
      threaded through as an explicit [State].
    - [exportRecord] recurses through the data, so it takes fuel; a separate
      theorem shows that enough fuel always exists when finitely many rows
      are reachable. *)

From Stdlib Require Import ZArith Ascii String DecimalString DecimalZ.
From stdpp Require Import base gmap sets list strings pretty relations.

Open Scope string_scope.
Open Scope list_scope.

(* set_solver clears hypotheses that are already gone *)
#[local] Set Warnings "-clear-no-such-hyp".

(** ** Go runtime helpers *)

Module Go.

(** [strings.Join]. *)
Fixpoint Join (elems : list string) (sep : string) : string :=
  match elems with
  | [] => ""
  | [e] => e
  | e :: rest => e +:+ sep +:+ Join rest sep
  end.

(** [strings.ReplaceAll] for a non-empty [old]: matches are taken left to
    right and do not overlap.  [skip] counts the bytes of a match that are
    still to be dropped. *)
Fixpoint replaceFrom (old new : string) (skip : nat) (s : string) : string :=
  match s with
  | "" => ""
  | String c s' =>
      match skip with
      | S k => replaceFrom old new k s'
      | O =>
          if String.prefix old s
          then new +:+ replaceFrom old new (String.length old - 1) s'
          else String c (replaceFrom old new 0 s')
      end
  end.

Definition ReplaceAll (s old new : string) : string :=
  replaceFrom old new 0 s.

(** [%v] of a signed integer. *)
Definition fmtInt (n : Z) : string := NilZero.string_of_int (Z.to_int n).

(** [%v] of a byte slice: the bytes in decimal between brackets. *)
Definition fmtBytes (b : string) : string :=
  "[" +:+ Join (map (fun c => pretty (nat_of_ascii c)) (list_ascii_of_string b)) " " +:+ "]".

End Go.

(** ** Data model *)

(** The dynamic types a scanned [interface{}] can hold.  Floating-point
    numbers, times and values of any further type are carried by the text
    the [fmt] and [time] packages print for them: that text is all the
    exporter ever looks at. *)
Inductive Value : Type :=
| VNil                                   (* nil: SQL NULL *)
| VBytes (b : string)                    (* []byte *)
| VString (s : string)                   (* string *)
| VBool (b : bool)                       (* bool *)
| VInt (n : Z)                           (* int, int8, int16, int32, int64 *)
| VFloat (v : string)                    (* float32, float64: its %v text *)
| VTime (rfc3339 : string) (v : string)  (* time.Time: Format(RFC3339), %v *)
| VOther (v : string).                   (* any other type: its %v text *)

Global Instance Value_eq_dec : EqDecision Value.
Proof. solve_decision. Defined.

(** [fmt.Sprintf("%v", val)]. *)
Definition fmtV (val : Value) : string :=
  match val with
  | VNil => "<nil>"
  | VBytes b => Go.fmtBytes b
  | VString s => s
  | VBool true => "true"
  | VBool false => "false"
  | VInt n => Go.fmtInt n
  | VFloat v => v
  | VTime _ v => v
  | VOther v => v
  end.

Record ForeignKey : Type := {
  ConstraintName : string;
  TableName : string;
  ColumnName : string;
  ForeignTableName : string;
  ForeignColumnName : string
}.

Record Record_ : Type := {
  Table : string;
  Columns : list string;
  Values : list Value
}.

Global Instance Record_eq_dec : EqDecision Record_.
Proof. solve_decision. Defined.

(** ** Script generator *)

(** [escapeSQLString]. *)
Definition escapeSQLString (s : string) : string :=
  let s := Go.ReplaceAll s "\" "\\" in
  let s := Go.ReplaceAll s "'" "''" in
  s.

(** [formatValue].  The type switch has a [default] branch, so every value
    is formatted. *)
Definition formatValue (val : Value) : string :=
  match val with
  | VNil => "NULL"
  | VBytes v => "'" +:+ escapeSQLString v +:+ "'"
  | VString v => "'" +:+ escapeSQLString v +:+ "'"
  | VBool v => if v then "true" else "false"
  | VInt v => Go.fmtInt v
  | VFloat v => v
  | VTime rfc3339 _ => "'" +:+ rfc3339 +:+ "'"
  | VOther str => "'" +:+ escapeSQLString str +:+ "'"
  end.

(** An [io.Writer] is the text written to it so far. *)
Definition Fprintf (writer : string) (text : string) : string := writer +:+ text.

Definition newline : string := String (ascii_of_nat 10) "".

(** The three writes of one iteration of the loop of [GenerateSQL]. *)
Definition writeRecord (writer : string) (record : Record_) : string :=
  let columns := Go.Join (Columns record) ", " in
  let values := map formatValue (Values record) in
  let valueList := Go.Join values ", " in
  let writer := Fprintf writer ("INSERT INTO " +:+ Table record +:+ " (" +:+ columns +:+ ")" +:+ newline) in
  let writer := Fprintf writer ("VALUES (" +:+ valueList +:+ ")" +:+ newline) in
  Fprintf writer ("ON CONFLICT DO NOTHING;" +:+ newline +:+ newline).

Inductive error : Type :=
| ErrNoRows                               (* sql.ErrNoRows *)
| ErrEngine (msg : string)                (* an error reported by the driver *)
| ErrScan                                 (* Scan: wrong number of destinations *)
| ErrNew (msg : string)                   (* fmt.Errorf without %w *)
| ErrWrap (msg : string) (cause : error). (* fmt.Errorf(msg + ": %w", cause) *)

(** [GenerateSQL]: [now] is [time.Now().Format(time.RFC3339)].  Returns the
    writer and the error value, which the code leaves [nil]. *)
Definition GenerateSQL (now : string) (records : list Record_) (writer : string)
  : string * option error :=
  let writer := Fprintf writer ("-- Database export generated by agentenv" +:+ newline) in
  let writer := Fprintf writer ("-- Generated at: " +:+ now +:+ newline +:+ newline) in
  let writer := Fprintf writer ("BEGIN;" +:+ newline +:+ newline) in
  let writer := fold_left writeRecord records writer in
  let writer := Fprintf writer ("COMMIT;" +:+ newline) in
  (writer, None).

(** [err.Error()]. *)
Fixpoint errorString (err : error) : string :=
  match err with
  | ErrNoRows => "sql: no rows in result set"
  | ErrEngine msg => msg
  | ErrScan => "sql: wrong number of destination arguments in Scan"
  | ErrNew msg => msg
  | ErrWrap msg cause => msg +:+ ": " +:+ errorString cause
  end.

(** ** The engine *)

Inductive result (A : Type) : Type :=
| Ok (a : A)
| Err (err : error).
Arguments Ok {A} a.
Arguments Err {A} err.

(** What the connected engine answers to the four queries of the exporter:
    an error, or the rows of the result set.  The engine is only read, and
    is taken not to change while one export runs. *)
Record Engine : Type := {
  (* SELECT column_name FROM information_schema.columns
     WHERE table_name = $1 ORDER BY ordinal_position *)
  queryColumns : string -> result (list string);
  (* SELECT a.attname FROM pg_index i JOIN pg_attribute a ...
     WHERE i.indrelid = $1::regclass AND i.indisprimary *)
  queryPrimaryKey : string -> result (list string);
  (* the FOREIGN KEY constraints with tc.table_name = $1 *)
  queryForeignKeys : string -> result (list ForeignKey);
  (* SELECT <columns> FROM <table> WHERE <pkColumn> = $1, with argument id *)
  queryRow : list string -> string -> string -> Value -> result (list (list Value))
}.

(** ** The exporter *)

(** The fields [visited] and [records] of [Exporter], and the lines the
    exporter has printed on standard output. *)
Record State : Type := {
  visited : gset string;
  records : list Record_;
  stdout : list string
}.

Definition markVisited (recordKey : string) (st : State) : State :=
  {| visited := {[recordKey]} ∪ visited st; records := records st; stdout := stdout st |}.

Definition appendRecord (record : Record_) (st : State) : State :=
  {| visited := visited st; records := records st ++ [record]; stdout := stdout st |}.

Definition Printf (text : string) (st : State) : State :=
  {| visited := visited st; records := records st; stdout := stdout st ++ [text] |}.

(** A call returns, panics (index out of range), or needs more fuel than it
    was given. *)
Inductive Outcome (A : Type) : Type :=
| Done (a : A)
| Panic
| OutOfFuel.
Arguments Done {A} a.
Arguments Panic {A}.
Arguments OutOfFuel {A}.

(** [getTableColumns]. *)
Definition getTableColumns (e : Engine) (table : string) : result (list string) :=
  queryColumns e table.

(** [getPrimaryKeyColumn]: [QueryRow(...).Scan(&pkColumn)] reads the first
    row of the result set and reports [sql.ErrNoRows] when there is none. *)
Definition getPrimaryKeyColumn (e : Engine) (table : string) : result string :=
  match queryPrimaryKey e table with
  | Err err => Err err
  | Ok [] => Err ErrNoRows
  | Ok (pkColumn :: _) => Ok pkColumn
  end.

(** [getForeignKeys]. *)
Definition getForeignKeys (e : Engine) (table : string) : result (list ForeignKey) :=
  queryForeignKeys e table.

(** [fetchRecord]: [Ok None] is the pair [(nil, nil)] returned when no row
    matches. *)
Definition fetchRecord (e : Engine) (table pkColumn : string) (id : Value)
  : result (option Record_) :=
  match getTableColumns e table with
  | Err err => Err err
  | Ok columns =>
      match queryRow e columns table pkColumn id with
      | Err err => Err err
      | Ok [] => Ok None
      | Ok (values :: _) =>
          if decide (length values = length columns)
          then Ok (Some {| Table := table; Columns := columns; Values := values |})
          else Err ErrScan
      end
  end.

(** [fmt.Sprintf("%s:%v", table, id)]. *)
Definition recordKey (table : string) (id : Value) : string :=
  table +:+ ":" +:+ fmtV id.

(** The inner loop of [exportRecord] that looks for the column of a foreign
    key: the first index holding that name, [None] for [-1]. *)
Definition columnIndex (columns : list string) (name : string) : option nat :=
  fst <$> list_find (fun col => col = name) columns.

Definition fkWarning (table : string) (fk : ForeignKey) (err : error) : string :=
  "Warning: failed to export FK " +:+ table +:+ "." +:+ ColumnName fk +:+ " -> "
    +:+ ForeignTableName fk +:+ ": " +:+ errorString err +:+ newline.

(** One iteration of the loop over [foreignKeys]; [recurse] is the
    recursive call to [exportRecord]. *)
Definition followForeignKey
    (recurse : string -> Value -> State -> Outcome (option error * State))
    (table : string) (record : Record_) (fk : ForeignKey) (st : State) : Outcome State :=
  match columnIndex (Columns record) (ColumnName fk) with
  | None => Done st
  | Some colIndex =>
      match Values record !! colIndex with
      | None => Panic
      | Some fkValue =>
          if decide (fkValue = VNil) then Done st
          else
            match recurse (ForeignTableName fk) fkValue st with
            | Done (None, st) => Done st
            | Done (Some err, st) => Done (Printf (fkWarning table fk err) st)
            | Panic => Panic
            | OutOfFuel => OutOfFuel
            end
      end
  end.

Fixpoint walkForeignKeys
    (recurse : string -> Value -> State -> Outcome (option error * State))
    (table : string) (record : Record_) (foreignKeys : list ForeignKey) (st : State)
  : Outcome State :=
  match foreignKeys with
  | [] => Done st
  | fk :: rest =>
      match followForeignKey recurse table record fk st with
      | Done st => walkForeignKeys recurse table record rest st
      | Panic => Panic
      | OutOfFuel => OutOfFuel
      end
  end.

(** [exportRecord]. *)
Fixpoint exportRecord (e : Engine) (fuel : nat) (table : string) (id : Value) (st : State)
  : Outcome (option error * State) :=
  match fuel with
  | O => OutOfFuel
  | S fuel =>
      if decide (recordKey table id ∈ visited st) then Done (None, st)
      else
        let st := markVisited (recordKey table id) st in
        match getPrimaryKeyColumn e table with
        | Err err =>
            Done (Some (ErrWrap ("failed to get primary key for table " +:+ table) err), st)
        | Ok pkColumn =>
            match getForeignKeys e table with
            | Err err =>
                Done (Some (ErrWrap ("failed to get foreign keys for table " +:+ table) err), st)
            | Ok foreignKeys =>
                match fetchRecord e table pkColumn id with
                | Err err =>
                    Done (Some (ErrWrap ("failed to fetch record from " +:+ table) err), st)
                | Ok None =>
                    Done (Some (ErrNew ("record not found: " +:+ table +:+ "." +:+ pkColumn
                                          +:+ " = " +:+ fmtV id)), st)
                | Ok (Some record) =>
                    match walkForeignKeys (exportRecord e fuel) table record foreignKeys st with
                    | Done st => Done (None, appendRecord record st)
                    | Panic => Panic
                    | OutOfFuel => OutOfFuel
                    end
                end
            end
        end
  end.

(** [Export]: the result pair [(records, err)], with [[]] for [nil]. *)
Definition Export (e : Engine) (fuel : nat) (table : string) (id : Value) (st : State)
  : Outcome (list Record_ * option error * State) :=
  let st := {| visited := ∅; records := []; stdout := stdout st |} in
  match exportRecord e fuel table id st with
  | Done (Some err, st) => Done ([], Some err, st)
  | Done (None, st) => Done (records st, None, st)
  | Panic => Panic
  | OutOfFuel => OutOfFuel
  end.

Definition initial : State := {| visited := ∅; records := []; stdout := [] |}.

(** ** Requests, rows and the reference graph

    The notions the properties below are stated with.  A request is a pair
    (table, id) handed to [exportRecord]. *)

Definition Request : Type := string * Value.

Definition keyOf (p : Request) : string := recordKey p.1 p.2.

(** The invariant of [Record]: as many values as columns. *)
Definition wellFormed (record : Record_) : Prop :=
  length (Values record) = length (Columns record).

(** The row the engine holds for a request: what [fetchRecord] returns for
    it under the primary-key column of its table. *)
Definition rowOf (e : Engine) (p : Request) : option Record_ :=
  match getPrimaryKeyColumn e p.1 with
  | Ok pkColumn =>
      match fetchRecord e p.1 pkColumn p.2 with
      | Ok (Some record) => Some record
      | _ => None
      end
  | Err _ => None
  end.

(** The row a walk of the request exports: its own three lookups succeed. *)
Definition fetched (e : Engine) (p : Request) : option Record_ :=
  match getForeignKeys e p.1 with
  | Ok _ => rowOf e p
  | Err _ => None
  end.

(** The request a foreign key of a row leads to: its column is among the
    columns of the row and the value there is not NULL. *)
Definition fkTarget (record : Record_) (fk : ForeignKey) : option Request :=
  match columnIndex (Columns record) (ColumnName fk) with
  | None => None
  | Some colIndex =>
      match Values record !! colIndex with
      | None => None
      | Some fkValue =>
          if decide (fkValue = VNil) then None else Some (ForeignTableName fk, fkValue)
      end
  end.

Definition recordTargets (e : Engine) (record : Record_) : list Request :=
  match getForeignKeys e (Table record) with
  | Ok foreignKeys => omap (fkTarget record) foreignKeys
  | Err _ => []
  end.

Definition targets (e : Engine) (p : Request) : list Request :=
  match fetched e p with
  | Some record => recordTargets e record
  | None => []
  end.

(** [edge e p q]: the walk of [p] recurses into [q]. *)
Definition edge (e : Engine) (p q : Request) : Prop := q ∈ targets e p.

Definition reachable (e : Engine) (root : Request) (p : Request) : Prop :=
  rtc (edge e) root p.

(** [references e r r']: some foreign key of row [r] with a non-NULL value
    leads to row [r']. *)
Definition references (e : Engine) (r r' : Record_) : Prop :=
  exists q, q ∈ recordTargets e r /\ rowOf e q = Some r'.

(** Dependency order of a record sequence: whatever a record references and
    the sequence holds, it holds at a strictly earlier position. *)
Definition dependencyOrdered (e : Engine) (recs : list Record_) : Prop :=
  forall i r r',
    recs !! i = Some r -> references e r r' -> r' ∈ recs ->
    exists j, j < i /\ recs !! j = Some r'.

(** No reachable row lies on a cycle of references. *)
Definition acyclicFrom (e : Engine) (root : Request) : Prop :=
  forall p q, reachable e root p -> tc (edge e) p q -> keyOf p <> keyOf q.

(** Every reachable row is asked for under one key only. *)
Definition oneKeyPerRow (e : Engine) (root : Request) : Prop :=
  forall p p' r,
    reachable e root p -> reachable e root p' ->
    fetched e p = Some r -> fetched e p' = Some r -> keyOf p = keyOf p'.

(** The value a record holds in the primary-key column of its table. *)
Definition primaryKeyValue (e : Engine) (record : Record_) : option Value :=
  match getPrimaryKeyColumn e (Table record) with
  | Ok pkColumn =>
      match columnIndex (Columns record) pkColumn with
      | Some i => Values record !! i
      | None => None
      end
  | Err _ => None
  end.

(** ** An engine held in memory

    Tables with their catalogue entries and rows, answering the four
    queries.  An argument travels to the engine as text, whatever Go type
    it has; a row matches when the text of its key is the text of the
    argument. *)

Module Memory.

Record TableData : Type := {
  name : string;
  columns : list string;
  primaryKey : list string;
  foreignKeys : list ForeignKey;
  rows : list (list Value)
}.

(** The text under which a value travels to the engine. *)
Definition wireText (v : Value) : string :=
  match v with
  | VNil => ""
  | VBytes b => b
  | VString s => s
  | VBool b => if b then "true" else "false"
  | VInt n => Go.fmtInt n
  | VFloat t => t
  | VTime rfc3339 _ => rfc3339
  | VOther t => t
  end.

Definition lookupTable (tables : list TableData) (table : string) : option TableData :=
  snd <$> list_find (fun td => name td = table) tables.

Definition selectRows (td : TableData) (pkColumn : string) (id : Value)
  : result (list (list Value)) :=
  match columnIndex (columns td) pkColumn with
  | None => Err (ErrEngine ("column " +:+ pkColumn +:+ " does not exist"))
  | Some i =>
      Ok (filter (fun row => (wireText <$> row !! i) = Some (wireText id)) (rows td))
  end.

Definition engine (tables : list TableData) : Engine := {|
  queryColumns table :=
    Ok (from_option columns [] (lookupTable tables table));
  queryPrimaryKey table :=
    match lookupTable tables table with
    | Some td => Ok (primaryKey td)
    | None => Err (ErrEngine ("relation " +:+ table +:+ " does not exist"))
    end;
  queryForeignKeys table :=
    Ok (from_option foreignKeys [] (lookupTable tables table));
  queryRow cols table pkColumn id :=
    match lookupTable tables table with
    | Some td =>
        if decide (cols = columns td) then selectRows td pkColumn id
        else Err (ErrEngine "syntax error")
    | None => Err (ErrEngine ("relation " +:+ table +:+ " does not exist"))
    end
|}.

Definition fk (table column foreignTable foreignColumn : string) : ForeignKey := {|
  ConstraintName := table +:+ "_" +:+ column +:+ "_fkey";
  TableName := table;
  ColumnName := column;
  ForeignTableName := foreignTable;
  ForeignColumnName := foreignColumn
|}.

End Memory.

(** ** Scenarios *)

Module Scenario.

Import Memory.

Definition users : TableData := {|
  name := "users"; columns := ["id"; "email"]; primaryKey := ["id"];
  foreignKeys := [];
  rows := [[VInt 1; VString "test@example.com"]]
|}.

Definition posts : TableData := {|
  name := "posts"; columns := ["id"; "user_id"; "title"]; primaryKey := ["id"];
  foreignKeys := [fk "posts" "user_id" "users" "id"];
  rows := [[VInt 100; VInt 1; VString "Test Post"]]
|}.

Definition user1 : Record_ :=
  {| Table := "users"; Columns := ["id"; "email"];
     Values := [VInt 1; VString "test@example.com"] |}.

Definition post100 : Record_ :=
  {| Table := "posts"; Columns := ["id"; "user_id"; "title"];
     Values := [VInt 100; VInt 1; VString "Test Post"] |}.

(** A and B: a users row, and a posts row that references it. *)
Definition blog : Engine := engine [users; posts].

(** C: a row that is its own parent. *)
Definition nodes : TableData := {|
  name := "nodes"; columns := ["id"; "parent_id"]; primaryKey := ["id"];
  foreignKeys := [fk "nodes" "parent_id" "nodes" "id"];
  rows := [[VInt 5; VInt 5]]
|}.

Definition node5 : Record_ :=
  {| Table := "nodes"; Columns := ["id"; "parent_id"]; Values := [VInt 5; VInt 5] |}.

Definition tree : Engine := engine [nodes].

(** D: the foreign key of the post is NULL, and there is no users table to
    ask. *)
Definition draft : TableData := {|
  name := "posts"; columns := ["id"; "user_id"; "title"]; primaryKey := ["id"];
  foreignKeys := [fk "posts" "user_id" "users" "id"];
  rows := [[VInt 100; VNil; VString "Draft"]]
|}.

Definition draft100 : Record_ :=
  {| Table := "posts"; Columns := ["id"; "user_id"; "title"];
     Values := [VInt 100; VNil; VString "Draft"] |}.

Definition drafts : Engine := engine [draft].

(** E: the users row the post references has been deleted. *)
Definition noUsers : TableData := {|
  name := "users"; columns := ["id"; "email"]; primaryKey := ["id"];
  foreignKeys := []; rows := []
|}.

Definition orphaned : Engine := engine [noUsers; posts].

(** Two rows that reference each other. *)
Definition authors : TableData := {|
  name := "users"; columns := ["id"; "last_post_id"]; primaryKey := ["id"];
  foreignKeys := [fk "users" "last_post_id" "posts" "id"];
  rows := [[VInt 1; VInt 100]]
|}.

Definition author1 : Record_ :=
  {| Table := "users"; Columns := ["id"; "last_post_id"]; Values := [VInt 1; VInt 100] |}.

Definition mutual : Engine := engine [authors; posts].

(** A self-referential row under a uuid key: the driver hands such a key
    back as a byte slice, while the caller names the root by a string. *)
Definition uuidNodes : TableData := {|
  name := "nodes"; columns := ["id"; "parent_id"]; primaryKey := ["id"];
  foreignKeys := [fk "nodes" "parent_id" "nodes" "id"];
  rows := [[VBytes "a0ee"; VBytes "a0ee"]]
|}.

Definition uuidNode : Record_ :=
  {| Table := "nodes"; Columns := ["id"; "parent_id"];
     Values := [VBytes "a0ee"; VBytes "a0ee"] |}.

Definition uuidTree : Engine := engine [uuidNodes].

(** A table whose primary key spans two columns. *)
Definition orderItems : TableData := {|
  name := "order_items"; columns := ["order_id"; "item_id"; "quantity"];
  primaryKey := ["order_id"; "item_id"];
  foreignKeys := [];
  rows := [[VInt 7; VInt 1; VInt 2]; [VInt 7; VInt 2; VInt 9]]
|}.

(** A table without a primary key. *)
Definition auditLog : TableData := {|
  name := "audit_log"; columns := ["at"; "message"]; primaryKey := [];
  foreignKeys := [];
  rows := [[VInt 1; VString "started"]]
|}.

Definition shop : Engine := engine [orderItems; auditLog].

End Scenario.

(** ** String constants of the engine

    How the engine reads a quoted string constant back.  A quote inside the
    constant is written twice.  Under the standard rules a backslash is an
    ordinary character; PostgreSQL reads plain constants that way when
    [standard_conforming_strings] is on, its default.  Under the escape
    rules (that setting off, or an [E'...'] constant) a backslash starts an
    escape sequence. *)

Module Literal.

Definition quote : ascii := "'"%char.
Definition backslash : ascii := "\"%char.

(** The character an escape sequence with one letter stands for, [None] for
    the numeric sequences, which are not modelled. *)
Definition unescape (c : ascii) : option ascii :=
  if decide (c = "n"%char) then Some (ascii_of_nat 10)
  else if decide (c = "t"%char) then Some (ascii_of_nat 9)
  else if decide (c = "r"%char) then Some (ascii_of_nat 13)
  else if decide (c = "b"%char) then Some (ascii_of_nat 8)
  else if decide (c = "f"%char) then Some (ascii_of_nat 12)
  else if decide (c ∈ ["0"; "1"; "2"; "3"; "4"; "5"; "6"; "7"; "x"; "u"; "U"]%char) then None
  else Some c.

(** Reads the text after the opening quote up to the closing quote, which
    has to end the input. *)
Fixpoint readBody (escapes : bool) (s : string) : option string :=
  match s with
  | "" => None
  | String c rest =>
      if decide (c = quote) then
        match rest with
        | "" => Some ""
        | String c' rest' =>
            if decide (c' = quote) then String quote <$> readBody escapes rest' else None
        end
      else if escapes && bool_decide (c = backslash) then
        match rest with
        | "" => None
        | String c' rest' =>
            match unescape c' with
            | Some d => String d <$> readBody escapes rest'
            | None => None
            end
        end
      else String c <$> readBody escapes rest
  end.

Definition parse (escapes : bool) (literal : string) : option string :=
  match literal with
  | "" => None
  | String c body => if decide (c = quote) then readBody escapes body else None
  end.

Definition parseStandard : string -> option string := parse false.
Definition parseEscape : string -> option string := parse true.

End Literal.

(** What [escapeSQLString] writes for one byte. *)
Definition escapeByte (c : ascii) : string :=
  if decide (c = Literal.backslash) then "\\"
  else if decide (c = Literal.quote) then "''"
  else String c "".

(** The text with every backslash written twice. *)
Fixpoint doubleBackslashes (s : string) : string :=
  match s with
  | "" => ""
  | String c rest =>
      if decide (c = Literal.backslash) then String c (String c (doubleBackslashes rest))
      else String c (doubleBackslashes rest)
  end.

(** Reads a decimal numeral. *)
Definition readDecimal (s : string) : option Z :=
  Z.of_int <$> NilZero.int_of_string s.

(** One [INSERT] statement of the script. *)
Definition insertBlock (record : Record_) : string :=
  "INSERT INTO " +:+ Table record +:+ " (" +:+ Go.Join (Columns record) ", " +:+ ")" +:+ newline
  +:+ "VALUES (" +:+ Go.Join (map formatValue (Values record)) ", " +:+ ")" +:+ newline
  +:+ "ON CONFLICT DO NOTHING;" +:+ newline +:+ newline.

Definition scriptHeader (now : string) : string :=
  "-- Database export generated by agentenv" +:+ newline
  +:+ "-- Generated at: " +:+ now +:+ newline +:+ newline.

(** What the caller of [Export] observes: the records, the error and the
    lines printed. *)
Definition observe (o : Outcome (list Record_ * option error * State))
  : Outcome (list Record_ * option error * list string) :=
  match o with
  | Done (recs, err, st) => Done (recs, err, stdout st)
  | Panic => Panic
  | OutOfFuel => OutOfFuel
  end.

(** The blocks of a script, written one after the other. *)
Definition joinAll (parts : list string) : string := foldr String.append "" parts.

(** The bytes of a string. *)
Definition bytes (s : string) : list ascii := list_ascii_of_string s.

(** ** Invariants of the walk *)

(** [exported e root st st']: from [st] to [st'] the visited set only
    grows, and the records appended are the rows of requests that are
    reachable from the root, carry pairwise distinct keys, and were marked
    in between. *)
Definition exported (e : Engine) (root : Request) (st st' : State) : Prop :=
  visited st ⊆ visited st' /\
  exists (origins : list Request) (new : list Record_),
    records st' = records st ++ new /\
    Forall2 (fun p r => fetched e p = Some r) origins new /\
    NoDup (keyOf <$> origins) /\
    Forall (fun p => reachable e root p /\ keyOf p ∈ visited st' /\ (keyOf p ∉ visited st))
      origins.

(** [ordered e root stack st]: [stack] holds the requests whose calls are in
    progress.  Every record has a reachable request it was fetched for;
    whatever a record refers to has been visited, is not in progress, and
    its row, if exported, stands before the record. *)
Definition ordered (e : Engine) (root : Request) (stack : list Request) (st : State) : Prop :=
  (forall r, r ∈ records st -> exists p, reachable e root p /\ fetched e p = Some r) /\
  (forall i r q,
      records st !! i = Some r -> q ∈ recordTargets e r ->
      keyOf q ∈ visited st /\ (keyOf q ∉ (keyOf <$> stack)) /\
      forall j r', records st !! j = Some r' -> fetched e q = Some r' -> j < i).

(** Requests with the same key are answered with the same row. *)
Definition sameKeySameRow (e : Engine) (root : Request) : Prop :=
  forall p p',
    reachable e root p -> reachable e root p' ->
    keyOf p = keyOf p' -> fetched e p = fetched e p'.

(** [settled e root st st']: from [st] to [st'] the visited set and the
    output only grow; whatever the appended records refer to has been
    visited; and every key marked in between belongs to a reachable request
    that either failed, with a line printed since, or has its row among the
    records. *)
Definition settled (e : Engine) (root : Request) (st st' : State) : Prop :=
  visited st ⊆ visited st' /\
  length (stdout st) <= length (stdout st') /\
  (exists new, records st' = records st ++ new /\
     forall r q, r ∈ new -> q ∈ recordTargets e r -> keyOf q ∈ visited st') /\
  (forall k, k ∈ visited st' -> k ∉ visited st ->
     exists p, keyOf p = k /\ reachable e root p /\
       ((fetched e p = None /\ length (stdout st) < length (stdout st')) \/
        (exists r, fetched e p = Some r /\ r ∈ records st'))).

(** ** The caller: [runExport] of [cmd/export.go] *)

(** [strconv.Atoi] where [int] has 64 bits: an optional sign and one or
    more decimal digits, within the range of [int]; [None] is its error. *)
Definition Atoi (s : string) : option Z :=
  let magnitude (digits : string) := Z.of_uint <$> NilZero.uint_of_string digits in
  let n :=
    match s with
    | "" => None
    | String c rest =>
        if decide (c = "+"%char) then magnitude rest
        else if decide (c = "-"%char) then Z.opp <$> magnitude rest
        else magnitude s
    end in
  n ≫= fun n => if decide (- 2 ^ 63 <= n < 2 ^ 63)%Z then Some n else None.

(** The id handed to [Export]: "Try to parse ID as integer, fall back to
    string". *)
Definition parseID (idStr : string) : Value :=
  match Atoi idStr with
  | Some idInt => VInt idInt
  | None => VString idStr
  end.

(** The loop that fills [tableCounts]: a missing entry of a Go map reads as
    zero. *)
Definition tableCounts (records : list Record_) : gmap string nat :=
  fold_left (fun counts record =>
               <[Table record := S (default 0 (counts !! Table record))]> counts)
    records ∅.

(** ** Ports and the agent registry

    [internal/config] and [internal/registry].  A Go [int] has 64 bits;
    sums wrap around. *)

Definition wrapInt (n : Z) : Z := ((n + 2 ^ 63) mod 2 ^ 64 - 2 ^ 63)%Z.

Definition intAdd (a b : Z) : Z := wrapInt (a + b).

Definition isInt (n : Z) : Prop := (- 2 ^ 63 <= n < 2 ^ 63)%Z.

Module Config.

Record PortMapping : Type := {
  Container : Z;
  HostBase : Z
}.

Record ServiceConfig : Type := {
  Ports : list PortMapping;
  Volumes : list string;
  Environment : gmap string string;
  DependsOn : list string
}.

Record DockerConfig : Type := {
  ComposeFile : string;
  Services : gmap string ServiceConfig
}.

(** Of [Config], the part the port functions read. *)
Record Config : Type := {
  Docker : DockerConfig
}.

(** [GetServicePort]. *)
Definition GetServicePort (c : Config) (serviceName : string) (agentID : Z) : Z :=
  match Services (Docker c) !! serviceName with
  | None => 0
  | Some service =>
      match Ports service with
      | [] => 0
      | first :: _ => intAdd (HostBase first) agentID
      end
  end.

(** [GetAllPorts]: the loop over the services. *)
Definition GetAllPorts (c : Config) (agentID : Z) : gmap string Z :=
  map_fold (fun serviceName service ports =>
              match Ports service with
              | [] => ports
              | first :: _ => <[serviceName := intAdd (HostBase first) agentID]> ports
              end)
    ∅ (Services (Docker c)).

End Config.

Module Registry.

Record Agent : Type := {
  Name : string;
  Branch : string;
  AgentCommand : string;
  WorktreePath : string;
  Ports : gmap string Z;
  PortSlot : Z;
  CreatedAt : string;
  DockerComposeOverride : string;
  PID : Z
}.

Record Registry : Type := {
  Project : string;
  ConfigVersion : string;
  NextID : Z;
  Agents : gmap string Agent
}.

Definition withAgents (r : Registry) (agents : gmap string Agent) : Registry :=
  {| Project := Project r; ConfigVersion := ConfigVersion r; NextID := NextID r;
     Agents := agents |}.

(** The set [usedSlots] of [FindNextAvailableSlot]. *)
Definition usedSlots (r : Registry) : gset Z :=
  map_to_set (fun _ agent => PortSlot agent) (Agents r).

(** The search loop of [FindNextAvailableSlot] from [slot] on; it has no
    bound in the code, so it takes fuel here. *)
Fixpoint findSlot (fuel : nat) (used : gset Z) (slot : Z) : option Z :=
  match fuel with
  | O => None
  | S fuel =>
      if decide (slot ∈ used) then findSlot fuel used (intAdd slot 1) else Some slot
  end.

(** [FindNextAvailableSlot]. *)
Definition FindNextAvailableSlot (fuel : nat) (r : Registry) : option Z :=
  findSlot fuel (usedSlots r) 1.

(** [AllocateAgent]; [now] is the text of [time.Now()].  Returns the agent
    or the error, and the registry afterwards. *)
Definition AllocateAgent (r : Registry) (agentID branch agentCommand worktreePath : string)
    (ports : gmap string Z) (portSlot : Z) (now : string) : result Agent * Registry :=
  match Agents r !! agentID with
  | Some _ => (Err (ErrNew ("agent '" +:+ agentID +:+ "' already exists")), r)
  | None =>
      let agent := {|
        Name := agentID;
        Branch := branch;
        AgentCommand := agentCommand;
        WorktreePath := worktreePath;
        Ports := ports;
        PortSlot := portSlot;
        CreatedAt := now;
        DockerComposeOverride := "docker-compose." +:+ agentID +:+ ".override.yml";
        PID := 0
      |} in
      (Ok agent, withAgents r (<[agentID := agent]> (Agents r)))
  end.

(** [GetAgent]. *)
Definition GetAgent (r : Registry) (agentID : string) : result Agent :=
  match Agents r !! agentID with
  | Some agent => Ok agent
  | None => Err (ErrNew ("agent " +:+ agentID +:+ " not found"))
  end.

(** [RemoveAgent]. *)
Definition RemoveAgent (r : Registry) (agentID : string) : option error * Registry :=
  match Agents r !! agentID with
  | None => (Some (ErrNew ("agent " +:+ agentID +:+ " not found")), r)
  | Some _ => (None, withAgents r (delete agentID (Agents r)))
  end.

(** No two agents hold the same port slot. *)
Definition slotsDistinct (r : Registry) : Prop :=
  forall id1 id2 a1 a2,
    Agents r !! id1 = Some a1 -> Agents r !! id2 = Some a2 ->
    PortSlot a1 = PortSlot a2 -> id1 = id2.

End Registry.

(** A configuration with one published service and one without ports. *)
Definition webConfig : Config.Config := {|
  Config.Docker := {|
    Config.ComposeFile := "docker-compose.yml";
    Config.Services := {[
      "backend" := {| Config.Ports := [{| Config.Container := 8000; Config.HostBase := 8000 |}];
                      Config.Volumes := []; Config.Environment := ∅; Config.DependsOn := [] |};
      "worker" := {| Config.Ports := []; Config.Volumes := []; Config.Environment := ∅;
                     Config.DependsOn := ["backend"] |} ]}
  |}
|}.

(** A registry without agents. *)
Definition emptyRegistry : Registry.Registry :=
  {| Registry.Project := "shop"; Registry.ConfigVersion := "1.0"; Registry.NextID := 1;
     Registry.Agents := ∅ |}.

(** * Properties *)

(** Splits a [Forall] over an explicit list into one goal per element. *)
Ltac each_element := repeat first [apply Forall_nil_2 | apply Forall_cons_2].

(** ** Strings *)

Lemma append_cons c s t : String c s +:+ t = String c (s +:+ t).
Proof. reflexivity. Qed.

Lemma append_nil_r s : s +:+ "" = s.
Proof. induction s as [|c s IH]; [done|]. by rewrite append_cons, IH. Qed.

Lemma append_assoc s t u : (s +:+ t) +:+ u = s +:+ (t +:+ u).
Proof. induction s as [|c s IH]; [done|]. by rewrite !append_cons, IH. Qed.

Lemma replaceFrom_byte a new c s :
  Go.replaceFrom (String a "") new 0 (String c s) =
  if decide (c = a) then new +:+ Go.replaceFrom (String a "") new 0 s
  else String c (Go.replaceFrom (String a "") new 0 s).
Proof.
  simpl. destruct (ascii_dec a c) as [->|Hne].
  - rewrite decide_True by done. by destruct s.
  - by rewrite decide_False by congruence.
Qed.

Lemma replaceFrom_byte_app a new s t :
  Go.replaceFrom (String a "") new 0 (s +:+ t) =
  Go.replaceFrom (String a "") new 0 s +:+ Go.replaceFrom (String a "") new 0 t.
Proof.
  induction s as [|c s IH]; [done|].
  rewrite append_cons, !replaceFrom_byte, IH.
  case_decide; [by rewrite append_assoc | done].
Qed.

Lemma escapeSQLString_nil : escapeSQLString "" = "".
Proof. reflexivity. Qed.

Lemma escapeSQLString_cons c s :
  escapeSQLString (String c s) = escapeByte c +:+ escapeSQLString s.
Proof.
  unfold escapeSQLString, Go.ReplaceAll, escapeByte.
  rewrite replaceFrom_byte. unfold Literal.backslash, Literal.quote.
  case_decide as Hb.
  - subst c. by rewrite replaceFrom_byte_app.
  - rewrite replaceFrom_byte. by case_decide.
Qed.

Lemma readBody_quote_quote escapes s :
  Literal.readBody escapes (String "'" (String "'" s)) =
  String "'" <$> Literal.readBody escapes s.
Proof. reflexivity. Qed.

Lemma readBody_backslash_backslash s :
  Literal.readBody true (String "\" (String "\" s)) =
  String "\" <$> Literal.readBody true s.
Proof. reflexivity. Qed.

Lemma readBody_plain escapes c s :
  c <> Literal.quote -> (escapes = false \/ c <> Literal.backslash) ->
  Literal.readBody escapes (String c s) = String c <$> Literal.readBody escapes s.
Proof.
  intros Hq Hb. cbn [Literal.readBody]. rewrite decide_False by done.
  destruct Hb as [->|Hb]; [done|].
  by rewrite bool_decide_eq_false_2, andb_false_r by done.
Qed.

Lemma readBody_escaped_escape s :
  Literal.readBody true (escapeSQLString s +:+ "'") = Some s.
Proof.
  induction s as [|c s IH]; [done|].
  rewrite escapeSQLString_cons. unfold escapeByte.
  case_decide as Hb; [|case_decide as Hq]; subst; rewrite !append_cons;
    change ("" +:+ ?x) with x.
  - by rewrite readBody_backslash_backslash, IH.
  - by rewrite readBody_quote_quote, IH.
  - rewrite readBody_plain by auto. by rewrite IH.
Qed.

Lemma readBody_escaped_standard s :
  Literal.readBody false (escapeSQLString s +:+ "'") = Some (doubleBackslashes s).
Proof.
  induction s as [|c s IH]; [done|].
  rewrite escapeSQLString_cons. unfold escapeByte. cbn [doubleBackslashes].
  case_decide as Hb; [|case_decide as Hq]; subst; rewrite !append_cons;
    change ("" +:+ ?x) with x.
  - rewrite !readBody_plain by (auto || done). by rewrite IH.
  - by rewrite readBody_quote_quote, IH.
  - rewrite readBody_plain by auto. by rewrite IH.
Qed.

Lemma doubleBackslashes_length s :
  String.length s <= String.length (doubleBackslashes s).
Proof.
  induction s as [|c s IH]; [done|]. cbn [doubleBackslashes].
  case_decide; simpl; lia.
Qed.

Lemma doubleBackslashes_fixed s :
  doubleBackslashes s = s <-> Literal.backslash ∉ bytes s.
Proof.
  induction s as [|c s IH]; cbn [doubleBackslashes bytes list_ascii_of_string].
  - split; [intros _; apply not_elem_of_nil | done].
  - fold (bytes s). rewrite not_elem_of_cons. case_decide as Hb.
    + split; [|by intros [? _]]. intros Heq. exfalso.
      injection Heq as Heq. pose proof (doubleBackslashes_length s) as Hlen.
      rewrite <- Heq in Hlen at 1. simpl in Hlen. lia.
    + split.
      * intros Heq. injection Heq as Heq. split; [congruence | by apply IH].
      * intros [_ Hs]. f_equal. by apply IH.
Qed.

(** ** Script generator *)

Lemma parse_formatted escapes s :
  Literal.parse escapes (formatValue (VString s)) =
  Literal.readBody escapes (escapeSQLString s +:+ "'").
Proof. reflexivity. Qed.

Lemma fmtInt_readDecimal n : readDecimal (Go.fmtInt n) = Some n.
Proof.
  unfold readDecimal, Go.fmtInt. rewrite NilZero.isi.
  - simpl. by rewrite DecimalZ.of_to.
  - destruct n as [|p|p]; simpl; [done| |done].
    intros [=Hp]. by apply DecimalPos.Unsigned.to_uint_nonnil in Hp.
  - destruct n as [|p|p]; simpl; [done|done|].
    intros [=Hp]. by apply DecimalPos.Unsigned.to_uint_nonnil in Hp.
Qed.

Lemma fold_writeRecord records writer :
  fold_left writeRecord records writer = writer +:+ joinAll (map insertBlock records).
Proof.
  revert writer. induction records as [|r records IH]; intros writer; simpl.
  - by rewrite append_nil_r.
  - rewrite IH. unfold writeRecord, Fprintf, insertBlock.
    by rewrite !append_assoc.
Qed.

Lemma joinAll_app parts parts' :
  joinAll (parts ++ parts') = joinAll parts +:+ joinAll parts'.
Proof.
  induction parts as [|p parts IH]; [done|].
  cbn [app joinAll foldr]. fold (joinAll (parts ++ parts')).
  by rewrite IH, append_assoc.
Qed.




(** The tests of [export_test.go] for [formatValue] and [escapeSQLString]. *)
Example formatValue_tests :
  formatValue VNil = "NULL" /\
  formatValue (VInt 42) = "42" /\
  formatValue (VString "hello") = "'hello'" /\
  formatValue (VString "it's cool") = "'it''s cool'" /\
  formatValue (VBool true) = "true" /\
  formatValue (VBool false) = "false" /\
  formatValue (VFloat "3.14") = "3.14" /\
  escapeSQLString "hello world" = "hello world" /\
  escapeSQLString "path\to\file" = "path\\to\\file" /\
  escapeSQLString "it's a\path" = "it''s a\\path".
Proof. repeat split; reflexivity. Qed.

(** C8.  The script is the header, one [BEGIN;], one insert block per
    record in the order of the records, and one [COMMIT;]; a block names
    the table and all columns of its record, lists the formatted values and
    ends in [ON CONFLICT DO NOTHING;]. *)
Theorem GenerateSQL_script now recs writer :
  GenerateSQL now recs writer =
  (writer +:+ joinAll ([scriptHeader now; "BEGIN;" +:+ newline +:+ newline]
                         ++ map insertBlock recs
                         ++ ["COMMIT;" +:+ newline]),
   None) /\
  forall record, insertBlock record =
    "INSERT INTO " +:+ Table record +:+ " (" +:+ Go.Join (Columns record) ", " +:+ ")" +:+ newline
    +:+ "VALUES (" +:+ Go.Join (map formatValue (Values record)) ", " +:+ ")" +:+ newline
    +:+ "ON CONFLICT DO NOTHING;" +:+ newline +:+ newline.
Proof.
  split; [|done].
  unfold GenerateSQL, Fprintf. rewrite fold_writeRecord. f_equal.
  rewrite !joinAll_app. cbn [joinAll foldr]. unfold scriptHeader.
  by rewrite !append_assoc, ?append_nil_r.
Qed.

(** The records of [TestGenerateSQL]. *)
Example GenerateSQL_test :
  GenerateSQL "2025-01-01T00:00:00Z" [Scenario.user1; Scenario.post100] "" =
  ("-- Database export generated by agentenv" +:+ newline
   +:+ "-- Generated at: 2025-01-01T00:00:00Z" +:+ newline +:+ newline
   +:+ "BEGIN;" +:+ newline +:+ newline
   +:+ "INSERT INTO users (id, email)" +:+ newline
   +:+ "VALUES (1, 'test@example.com')" +:+ newline
   +:+ "ON CONFLICT DO NOTHING;" +:+ newline +:+ newline
   +:+ "INSERT INTO posts (id, user_id, title)" +:+ newline
   +:+ "VALUES (100, 1, 'Test Post')" +:+ newline
   +:+ "ON CONFLICT DO NOTHING;" +:+ newline +:+ newline
   +:+ "COMMIT;" +:+ newline, None).
Proof. reflexivity. Qed.

(** C10 as stated fails: a value of a type outside the listed ones is
    written as a quoted string and [GenerateSQL] reports no error. *)
Lemma other_type_is_written :
  GenerateSQL "2025-01-01T00:00:00Z"
    [{| Table := "events"; Columns := ["payload"]; Values := [VOther "map[a:1]"] |}] "" =
  (joinAll [scriptHeader "2025-01-01T00:00:00Z"; "BEGIN;" +:+ newline +:+ newline;
            "INSERT INTO events (payload)" +:+ newline +:+ "VALUES ('map[a:1]')" +:+ newline
              +:+ "ON CONFLICT DO NOTHING;" +:+ newline +:+ newline;
            "COMMIT;" +:+ newline],
   None).
Proof. reflexivity. Qed.

(** C10, as amended.  [formatValue] has no failing case: a value of any
    other type is written as its [%v] text, escaped and quoted; and
    [GenerateSQL] returns a nil error for every record sequence. *)
Theorem GenerateSQL_never_fails :
  (forall now recs writer, (GenerateSQL now recs writer).2 = None) /\
  (forall v, formatValue (VOther v) = "'" +:+ escapeSQLString v +:+ "'").
Proof. split; reflexivity. Qed.

(** ** The row fetcher and the schema reader *)

Lemma fetchRecord_Some e table pkColumn id record :
  fetchRecord e table pkColumn id = Ok (Some record) ->
  Table record = table /\ wellFormed record.
Proof.
  unfold fetchRecord, wellFormed.
  destruct (getTableColumns e table) as [cols|]; [|done].
  destruct (queryRow e cols table pkColumn id) as [[|vals rest]|]; [done| |done].
  case_decide; [|done]. by intros [= <-].
Qed.

Lemma rowOf_Some e p record :
  rowOf e p = Some record ->
  Table record = p.1 /\ wellFormed record /\
  exists pkColumn, getPrimaryKeyColumn e p.1 = Ok pkColumn /\
                   fetchRecord e p.1 pkColumn p.2 = Ok (Some record).
Proof.
  unfold rowOf. destruct (getPrimaryKeyColumn e p.1) as [pk|]; [|done].
  destruct (fetchRecord e p.1 pk p.2) as [[r|]|] eqn:Hf; [|done..].
  intros [= <-]. destruct (fetchRecord_Some _ _ _ _ _ Hf) as [Ht Hwf]. eauto 6.
Qed.

Lemma fetched_Some e p record :
  fetched e p = Some record <->
  rowOf e p = Some record /\ exists fks, getForeignKeys e p.1 = Ok fks.
Proof.
  unfold fetched. destruct (getForeignKeys e p.1) as [fks|err].
  - split; [eauto|by intros [? _]].
  - split; [done|]. by intros [_ [fks [=]]].
Qed.

Lemma fetched_table e p record : fetched e p = Some record -> Table record = p.1.
Proof. intros [Hr _]%fetched_Some. by apply rowOf_Some in Hr as [? _]. Qed.

Lemma fetched_wellFormed e p record : fetched e p = Some record -> wellFormed record.
Proof. intros [Hr _]%fetched_Some. by apply rowOf_Some in Hr as (_ & ? & _). Qed.

Lemma columnIndex_Some columns name i :
  columnIndex columns name = Some i <->
  columns !! i = Some name /\ forall j, j < i -> columns !! j <> Some name.
Proof.
  unfold columnIndex. split.
  - destruct (list_find _ columns) as [[i' x]|] eqn:Hfind; [|done].
    intros [= <-]. apply list_find_Some in Hfind as (Hi & -> & Hmin).
    split; [done|]. intros j Hj Hc. by eapply Hmin.
  - intros [Hi Hmin].
    assert (list_find (fun col => col = name) columns = Some (i, name)) as ->; [|done].
    apply list_find_Some. split_and!; [done..|]. intros j y Hy Hj ->. by eapply Hmin.
Qed.

Lemma columnIndex_None columns name :
  columnIndex columns name = None <-> name ∉ columns.
Proof.
  unfold columnIndex. rewrite fmap_None, list_find_None, Forall_forall.
  split; [intros H Hin; by eapply H | intros H x Hx ->; done].
Qed.

Lemma recordTargets_elem e record fks q :
  getForeignKeys e (Table record) = Ok fks ->
  q ∈ recordTargets e record <-> exists fk, fk ∈ fks /\ fkTarget record fk = Some q.
Proof. intros Hfks. unfold recordTargets. rewrite Hfks. apply list_elem_of_omap. Qed.

Lemma targets_fetched e p record :
  fetched e p = Some record -> targets e p = recordTargets e record.
Proof. intros Hf. unfold targets. by rewrite Hf. Qed.

(** ** One step of the loop over the foreign keys *)

Lemma followForeignKey_skip recurse table record fk st :
  wellFormed record -> fkTarget record fk = None ->
  followForeignKey recurse table record fk st = Done st.
Proof.
  unfold wellFormed, fkTarget, followForeignKey. intros Hwf.
  destruct (columnIndex _ _) as [i|] eqn:Hi; [|done].
  apply columnIndex_Some in Hi as [Hi%lookup_lt_Some _].
  destruct (Values record !! i) as [v|] eqn:Hv.
  - by case_decide.
  - apply lookup_ge_None in Hv. lia.
Qed.

Lemma followForeignKey_target recurse table record fk st q :
  fkTarget record fk = Some q ->
  followForeignKey recurse table record fk st =
  match recurse q.1 q.2 st with
  | Done (None, st) => Done st
  | Done (Some err, st) => Done (Printf (fkWarning table fk err) st)
  | Panic => Panic
  | OutOfFuel => OutOfFuel
  end.
Proof.
  unfold fkTarget, followForeignKey.
  destruct (columnIndex _ _) as [i|]; [|done].
  destruct (Values record !! i) as [v|]; [|done].
  case_decide; [done|]. by intros [= <-].
Qed.

Lemma followForeignKey_Done recurse table record fk st st' :
  followForeignKey recurse table record fk st = Done st' ->
  (fkTarget record fk = None /\ st' = st) \/
  exists q err st'',
    fkTarget record fk = Some q /\ recurse q.1 q.2 st = Done (err, st'') /\
    st' = match err with
          | None => st''
          | Some err => Printf (fkWarning table fk err) st''
          end.
Proof.
  destruct (fkTarget record fk) as [q|] eqn:Hq.
  - rewrite (followForeignKey_target _ _ _ _ _ _ Hq).
    destruct (recurse q.1 q.2 st) as [[[err|] st'']| |] eqn:Hrec; [| |done..].
    + intros [= <-]. right. exists q, (Some err), st''. by rewrite Hrec.
    + intros [= <-]. right. exists q, None, st''. by rewrite Hrec.
  - intros Hdone. left. split; [done|]. revert Hq Hdone.
    unfold fkTarget, followForeignKey.
    destruct (columnIndex _ _) as [i|]; [|by intros _ [=]].
    destruct (Values record !! i) as [v|]; [|done].
    case_decide; [by intros _ [=]|done].
Qed.

(** A property kept by every recursive call and by every warning is kept by
    the loop. *)
Lemma walkForeignKeys_invariant (P : State -> Prop) recurse table record fks :
  (forall text st, P st -> P (Printf text st)) ->
  (forall fk q st err st',
      fk ∈ fks -> fkTarget record fk = Some q -> P st ->
      recurse q.1 q.2 st = Done (err, st') -> P st') ->
  forall st st',
    P st -> walkForeignKeys recurse table record fks st = Done st' -> P st'.
Proof.
  intros Hprint. induction fks as [|fk fks IH]; intros Hcall st st' HP; simpl.
  - by intros [= <-].
  - destruct (followForeignKey recurse table record fk st) as [st1| |] eqn:Hstep; [|done..].
    apply IH; [intros; eapply Hcall; eauto using list_elem_of_further|].
    apply followForeignKey_Done in Hstep as [[_ ->]|(q & err & st2 & Hq & Hrec & ->)]; [done|].
    assert (P st2) by (eapply Hcall; eauto using list_elem_of_here).
    destruct err; auto.
Qed.

(** The loop returns when every recursive call does. *)
Lemma walkForeignKeys_returns (P : State -> Prop) recurse table record fks :
  wellFormed record ->
  (forall text st, P st -> P (Printf text st)) ->
  (forall fk q st,
      fk ∈ fks -> fkTarget record fk = Some q -> P st ->
      exists err st', recurse q.1 q.2 st = Done (err, st') /\ P st') ->
  forall st, P st -> exists st', walkForeignKeys recurse table record fks st = Done st'.
Proof.
  intros Hwf Hprint. induction fks as [|fk fks IH]; intros Hcall st HP; simpl; [by eexists|].
  destruct (fkTarget record fk) as [q|] eqn:Hq.
  - rewrite (followForeignKey_target _ _ _ _ _ _ Hq).
    destruct (Hcall fk q st) as (err & st1 & -> & HP1); [apply list_elem_of_here|done..|].
    destruct err; apply IH; eauto using list_elem_of_further.
  - rewrite followForeignKey_skip by done. apply IH; eauto using list_elem_of_further.
Qed.

(** ** The walk *)

Lemma exportRecord_visited e fuel table id st :
  recordKey table id ∈ visited st ->
  exportRecord e (S fuel) table id st = Done (None, st).
Proof. intros Hin. simpl. by rewrite decide_True. Qed.

Lemma exportRecord_fails e fuel table id st :
  recordKey table id ∉ visited st -> fetched e (table, id) = None ->
  exists err, exportRecord e (S fuel) table id st =
              Done (Some err, markVisited (recordKey table id) st).
Proof.
  intros Hnew. unfold fetched, rowOf. simpl. rewrite decide_False by done.
  destruct (getPrimaryKeyColumn e table) as [pk|]; [|by eexists].
  destruct (getForeignKeys e table) as [fks|]; [|by eexists].
  destruct (fetchRecord e table pk id) as [[r|]|]; [done|by eexists..].
Qed.

Lemma exportRecord_walks e fuel table id st record fks :
  recordKey table id ∉ visited st -> fetched e (table, id) = Some record ->
  getForeignKeys e table = Ok fks ->
  exportRecord e (S fuel) table id st =
  match walkForeignKeys (exportRecord e fuel) table record fks
          (markVisited (recordKey table id) st) with
  | Done st => Done (None, appendRecord record st)
  | Panic => Panic
  | OutOfFuel => OutOfFuel
  end.
Proof.
  intros Hnew. unfold fetched, rowOf. simpl. rewrite decide_False by done.
  intros Hf Hfks. rewrite Hfks in Hf |- *.
  destruct (getPrimaryKeyColumn e table) as [pk|]; [|done].
  destruct (fetchRecord e table pk id) as [[r|]|]; [|done..]. by injection Hf as ->.
Qed.

(** The three ways in which a call returns. *)
Lemma exportRecord_Done e fuel table id st err st' :
  exportRecord e fuel table id st = Done (err, st') ->
  ((recordKey table id ∈ visited st) /\ err = None /\ st' = st) \/
  ((recordKey table id ∉ visited st) /\ fetched e (table, id) = None /\
   is_Some err /\ st' = markVisited (recordKey table id) st) \/
  ((recordKey table id ∉ visited st) /\
   exists fuel' record fks st'',
     fuel = S fuel' /\ fetched e (table, id) = Some record /\
     getForeignKeys e table = Ok fks /\
     walkForeignKeys (exportRecord e fuel') table record fks
       (markVisited (recordKey table id) st) = Done st'' /\
     err = None /\ st' = appendRecord record st'').
Proof.
  destruct fuel as [|fuel]; [done|].
  destruct (decide (recordKey table id ∈ visited st)) as [Hin|Hnew].
  { rewrite exportRecord_visited by done. intros [= <- <-]. by left. }
  right. destruct (fetched e (table, id)) as [record|] eqn:Hf.
  - right. split; [done|]. apply fetched_Some in Hf as Hf'. destruct Hf' as [_ [fks Hfks]].
    simpl in Hfks. rewrite (exportRecord_walks _ _ _ _ _ _ _ Hnew Hf Hfks) in H.
    destruct (walkForeignKeys _ _ _ _ _) as [st''| |] eqn:Hwalk; [|done..].
    injection H as <- <-. by exists fuel, record, fks, st''.
  - left. destruct (exportRecord_fails e fuel table id st Hnew Hf) as [err' Herr].
    rewrite Herr in H. injection H as <- <-. eauto.
Qed.

(** ** What a walk adds to the state *)

Section Walk.

Variable e : Engine.
Variable root : Request.

Local Abbreviation exported := (exported e root).

Lemma exported_refl st : exported st st.
Proof.
  split; [done|]. exists [], []. rewrite app_nil_r. split_and!; try done; constructor.
Qed.

Lemma exported_trans st1 st2 st3 :
  exported st1 st2 -> exported st2 st3 -> exported st1 st3.
Proof.
  intros [Hv12 (o12 & n12 & Hr12 & Hf12 & Hd12 & Ho12)]
         [Hv23 (o23 & n23 & Hr23 & Hf23 & Hd23 & Ho23)].
  split; [set_solver|]. exists (o12 ++ o23), (n12 ++ n23).
  rewrite Forall_forall in Ho12, Ho23. split_and!.
  - by rewrite Hr23, Hr12, app_assoc.
  - by apply Forall2_app.
  - rewrite fmap_app. apply NoDup_app. split_and!; [done| |done].
    intros k (p & -> & Hp)%list_elem_of_fmap (p' & Hk & Hp')%list_elem_of_fmap.
    apply Ho12 in Hp as (_ & Hin & _). apply Ho23 in Hp' as (_ & _ & Hout).
    rewrite <- Hk in Hout. done.
  - apply Forall_app. split; apply Forall_forall; intros p Hp.
    + apply Ho12 in Hp as (? & ? & ?). split_and!; [done|set_solver|done].
    + apply Ho23 in Hp as (? & ? & ?). split_and!; [done|done|set_solver].
Qed.

Lemma exported_Printf text st : exported st (Printf text st).
Proof.
  split; [done|]. exists [], []. simpl. rewrite app_nil_r.
  split_and!; try done; constructor.
Qed.

Lemma exported_markVisited key st : exported st (markVisited key st).
Proof.
  split; [simpl; set_solver|]. exists [], []. simpl. rewrite app_nil_r.
  split_and!; try done; constructor.
Qed.

Lemma edge_reachable p q : reachable e root p -> edge e p q -> reachable e root q.
Proof. intros Hp Hq. by eapply rtc_r. Qed.

Lemma target_edge p record fks fk q :
  fetched e p = Some record -> getForeignKeys e p.1 = Ok fks ->
  fk ∈ fks -> fkTarget record fk = Some q -> edge e p q.
Proof.
  intros Hf Hfks Hfk Hq. unfold edge. rewrite (targets_fetched _ _ _ Hf).
  eapply recordTargets_elem; [by rewrite (fetched_table _ _ _ Hf)|eauto].
Qed.

(** Every call that returns has marked its key and extended the state by
    [exported]. *)
Lemma exportRecord_exported fuel : forall p st err st',
  reachable e root p ->
  exportRecord e fuel p.1 p.2 st = Done (err, st') ->
  exported st st' /\ keyOf p ∈ visited st'.
Proof.
  induction fuel as [|fuel IH]; intros [table id] st err st' Hreach Hrun; [done|].
  apply exportRecord_Done in Hrun
    as [(Hin & _ & ->)|[(Hnew & _ & _ & ->)|(Hnew & fuel' & r & fks & st'' & [= <-] & Hf & Hfks & Hwalk & _ & ->)]];
    simpl in *.
  - split; [apply exported_refl|done].
  - split; [apply exported_markVisited|]. unfold keyOf. simpl. set_solver.
  - set (st1 := markVisited (recordKey table id) st) in *.
    assert (exported st1 st'') as Hloop.
    { eapply (walkForeignKeys_invariant (exported st1)); [| |apply exported_refl|exact Hwalk].
      - intros text s Hs. eapply exported_trans; [exact Hs|apply exported_Printf].
      - intros fk q s err' s' Hfk Hq Hs Hcall.
        eapply exported_trans; [exact Hs|]. eapply IH; [|exact Hcall].
        eapply edge_reachable; [exact Hreach|]. by eapply target_edge. }
    destruct Hloop as [Hv (origins & new & Hrecs & Hrows & Hdup & Horigins)].
    assert (recordKey table id ∈ visited st'') as Hkey by (subst st1; simpl in Hv; set_solver).
    split; [|done]. split; [subst st1; simpl in *; set_solver|].
    exists (origins ++ [(table, id)]), (new ++ [r]).
    rewrite Forall_forall in Horigins. split_and!.
    + simpl. by rewrite Hrecs, app_assoc.
    + apply Forall2_app; [done|]. by repeat constructor.
    + rewrite fmap_app. apply NoDup_app. split_and!; [done| |apply NoDup_singleton].
      intros k (p & -> & Hp)%list_elem_of_fmap Hk%list_elem_of_singleton.
      apply Horigins in Hp as (_ & _ & Hout). apply Hout. rewrite Hk.
      subst st1. unfold keyOf. simpl. set_solver.
    + apply Forall_app. split; apply Forall_forall; intros p Hp.
      * apply Horigins in Hp as (? & ? & Hout). split_and!; [done..|].
        intros Hin. apply Hout. subst st1. simpl. set_solver.
      * apply list_elem_of_singleton in Hp as ->. done.
Qed.

Lemma exportRecord_visited_mono fuel p st err st' :
  reachable e root p ->
  exportRecord e fuel p.1 p.2 st = Done (err, st') ->
  visited st ⊆ visited st' /\ keyOf p ∈ visited st'.
Proof.
  intros Hp Hrun. destruct (exportRecord_exported _ _ _ _ _ Hp Hrun) as [[Hv _] Hk]. done.
Qed.

End Walk.

(** ** Termination *)

Section Termination.

Variable e : Engine.
Variable root : Request.

(** With the keys of all reachable requests in a finite set, a call returns
    as soon as its fuel exceeds the number of keys not yet visited. *)
Lemma exportRecord_returns (keys : gset string) :
  (forall p, reachable e root p -> keyOf p ∈ keys) ->
  forall fuel p st,
    reachable e root p -> size (keys ∖ visited st) < fuel ->
    exists err st', exportRecord e fuel p.1 p.2 st = Done (err, st').
Proof.
  intros Hkeys. induction fuel as [|fuel IH]; intros [table id] st Hreach Hsize; [lia|].
  cbn [fst snd]. destruct (decide (recordKey table id ∈ visited st)) as [Hin|Hnew].
  { rewrite exportRecord_visited by done. eauto. }
  destruct (fetched e (table, id)) as [r|] eqn:Hf.
  2: { destruct (exportRecord_fails e fuel table id st Hnew Hf) as [err ->]. eauto. }
  destruct (proj1 (fetched_Some _ _ _) Hf) as [_ [fks Hfks]]. cbn [fst] in Hfks.
  rewrite (exportRecord_walks _ _ _ _ _ _ _ Hnew Hf Hfks).
  set (st1 := markVisited (recordKey table id) st).
  assert (size (keys ∖ visited st1) < size (keys ∖ visited st)) as Hless.
  { apply subset_size. specialize (Hkeys _ Hreach). unfold keyOf in Hkeys.
    subst st1. simpl in *. split; [set_solver|].
    intros Hsub. specialize (Hsub (recordKey table id)). set_solver. }
  destruct (walkForeignKeys_returns (fun s => visited st1 ⊆ visited s)
              (exportRecord e fuel) table r fks) with (st := st1) as [st'' ->];
    [by eapply fetched_wellFormed|done| |done|eauto].
  intros fk q s Hfk Hq Hs.
  assert (reachable e root q) as Hq'.
  { eapply edge_reachable; [exact Hreach|]. by eapply target_edge. }
  destruct (IH q s Hq') as (err & s' & Hcall).
  { assert (size (keys ∖ visited s) <= size (keys ∖ visited st1)); [|lia].
    apply subseteq_size. set_solver. }
  exists err, s'. split; [done|].
  destruct (exportRecord_visited_mono _ _ _ _ _ _ _ Hq' Hcall) as [Hmono _]. set_solver.
Qed.

(** The keys of the reachable requests, from the reachable rows. *)
Lemma reachable_keys (rows : list Record_) :
  (forall p r, reachable e root p -> fetched e p = Some r -> r ∈ rows) ->
  forall p, reachable e root p ->
    keyOf p ∈ ({[keyOf root]} ∪ list_to_set (keyOf <$> (rows ≫= recordTargets e)) : gset string).
Proof.
  intros Hrows q Hq. apply rtc_inv_r in Hq as [<-|(p & Hp & Hedge)]; [set_solver|].
  apply elem_of_union_r, elem_of_list_to_set, list_elem_of_fmap_2, list_elem_of_bind.
  unfold edge, targets in Hedge.
  destruct (fetched e p) as [r|] eqn:Hf; [|by apply elem_of_nil in Hedge].
  exists r. split; [done|]. by eapply Hrows.
Qed.

End Termination.

(** ** Dependency order *)

Lemma walkForeignKeys_visits recurse table record fks :
  (forall fk q st err st',
      fk ∈ fks -> fkTarget record fk = Some q ->
      recurse q.1 q.2 st = Done (err, st') ->
      visited st ⊆ visited st' /\ keyOf q ∈ visited st') ->
  forall st st',
    walkForeignKeys recurse table record fks st = Done st' ->
    visited st ⊆ visited st' /\
    forall fk q, fk ∈ fks -> fkTarget record fk = Some q -> keyOf q ∈ visited st'.
Proof.
  induction fks as [|fk fks IH]; intros Hcall st st'; simpl.
  - intros [= <-]. split; [done|]. intros fk q Hfk. by apply elem_of_nil in Hfk.
  - destruct (followForeignKey recurse table record fk st) as [st1| |] eqn:Hstep; [|done..].
    intros Hrest. apply IH in Hrest as [Hmono Hrest];
      [|intros; eapply Hcall; eauto using list_elem_of_further].
    apply followForeignKey_Done in Hstep
      as [[Hnone ->]|(q & err & st2 & Hq & Hrec & ->)].
    + split; [done|]. intros fk' q' [->|Hfk']%elem_of_cons Hq'; [congruence|eauto].
    + destruct (Hcall fk q st err st2) as [Hmono2 Hin2]; [apply list_elem_of_here|done..|].
      assert (visited st2 ⊆ visited st') as Hmono3 by (by destruct err).
      split; [set_solver|].
      intros fk' q' [->|Hfk']%elem_of_cons Hq'; [|eauto].
      assert (q' = q) as -> by congruence. set_solver.
Qed.

Section Order.

Variable e : Engine.
Variable root : Request.
Hypothesis one_key : oneKeyPerRow e root.
Hypothesis no_cycle : acyclicFrom e root.

Local Abbreviation ordered := (ordered e root).

Lemma ordered_same_records stack st st' :
  records st' = records st -> visited st ⊆ visited st' ->
  ordered stack st -> ordered stack st'.
Proof.
  intros Hrecs Hv [Ha Hb]. split; rewrite Hrecs; [done|].
  intros i r q Hi Hq. destruct (Hb i r q Hi Hq) as (? & ? & ?). split_and!; [set_solver|done..].
Qed.

Lemma ordered_push stack st p :
  keyOf p ∉ visited st -> ordered stack st ->
  ordered (p :: stack) (markVisited (keyOf p) st).
Proof.
  intros Hnew [Ha Hb]. split; [done|]. simpl.
  intros i r q Hi Hq. destruct (Hb i r q Hi Hq) as (Hin & Hout & Hord).
  split_and!; [set_solver| |done].
  rewrite ?fmap_cons, not_elem_of_cons. split; [|done].
  intros Heq. apply Hnew. by rewrite <- Heq.
Qed.

Lemma ordered_target_reachable stack st i r q :
  ordered stack st -> records st !! i = Some r -> q ∈ recordTargets e r ->
  reachable e root q.
Proof.
  intros [Ha _] Hi Hq. destruct (Ha r) as (p & Hp & Hf); [by eapply list_elem_of_lookup_2|].
  eapply edge_reachable; [exact Hp|]. unfold edge. by rewrite (targets_fetched _ _ _ Hf).
Qed.

Lemma ordered_pop stack st p r :
  reachable e root p ->
  (forall s, s ∈ stack -> reachable e root s /\ tc (edge e) s p) ->
  fetched e p = Some r ->
  (forall q, q ∈ recordTargets e r -> keyOf q ∈ visited st) ->
  ordered (p :: stack) st ->
  ordered stack (appendRecord r st).
Proof.
  intros Hp Hstack Hf Hvisited Hord. pose proof Hord as [Ha Hb]. split; simpl.
  - intros r' [Hr'|Hr'%list_elem_of_singleton]%elem_of_app; [by apply Ha|subst r'; eauto].
  - intros i r0 q Hi Hq. apply lookup_app_Some in Hi as [Hi|[Hlen Hi]].
    + destruct (Hb i r0 q Hi Hq) as (Hin & Hout & Hbefore).
      rewrite ?fmap_cons, not_elem_of_cons in Hout. destruct Hout as [Hne Hout].
      split_and!; [done..|]. intros j r' Hj Hfq.
      apply lookup_app_Some in Hj as [Hj|[Hlenj Hj]]; [by eapply Hbefore|].
      apply list_lookup_singleton_Some in Hj as [_ <-]. exfalso. apply Hne.
      eapply one_key; [by eapply ordered_target_reachable|exact Hp|done..].
    + apply list_lookup_singleton_Some in Hi as [Hi <-].
      assert (edge e p q) as Hedge by (unfold edge; by rewrite (targets_fetched _ _ _ Hf)).
      split_and!; [by apply Hvisited| |].
      * intros (s & Hk & Hs)%list_elem_of_fmap. destruct (Hstack s Hs) as [Hs' Hsp].
        eapply no_cycle; [exact Hs'|by eapply tc_r|done].
      * intros j r' Hj Hfq.
        apply lookup_app_Some in Hj as [Hj%lookup_lt_Some|[Hlenj Hj]]; [lia|].
        apply list_lookup_singleton_Some in Hj as [_ <-]. exfalso.
        eapply (no_cycle p q); [done|by apply tc_once|].
        eapply one_key; [exact Hp|by eapply edge_reachable|done..].
Qed.

Lemma exportRecord_ordered fuel : forall p stack st err st',
  reachable e root p ->
  (forall s, s ∈ stack -> reachable e root s /\ tc (edge e) s p) ->
  ordered stack st ->
  exportRecord e fuel p.1 p.2 st = Done (err, st') ->
  ordered stack st'.
Proof.
  induction fuel as [|fuel IH]; intros [table id] stack st err st' Hreach Hstack Hord Hrun;
    [done|].
  apply exportRecord_Done in Hrun
    as [(Hin & _ & ->)|[(Hnew & _ & _ & ->)|(Hnew & fuel' & r & fks & st'' & [= <-] & Hf & Hfks & Hwalk & _ & ->)]];
    cbn [fst snd] in *.
  - done.
  - eapply ordered_same_records; [| |exact Hord]; simpl; [done|set_solver].
  - set (p := (table, id)) in *. change (recordKey table id) with (keyOf p) in *.
    assert (forall fk q, fk ∈ fks -> fkTarget r fk = Some q ->
              reachable e root q /\ edge e p q) as Htargets.
    { intros fk q Hfk Hq. assert (edge e p q) by (by eapply target_edge).
      split; [by eapply edge_reachable|done]. }
    apply (ordered_pop stack st'' p r); [done..| |].
    + intros q Hq.
      eapply recordTargets_elem in Hq as (fk & Hfk & Hq);
        [|by rewrite (fetched_table _ _ _ Hf)].
      destruct (walkForeignKeys_visits (exportRecord e fuel) table r fks)
        with (st := markVisited (keyOf p) st) (st' := st'') as [_ Hv]; [|exact Hwalk|eauto].
      intros fk0 q0 s err' s' Hfk0 Hq0 Hcall. destruct (Htargets fk0 q0 Hfk0 Hq0) as [Hq' _].
      by eapply exportRecord_visited_mono.
    + eapply (walkForeignKeys_invariant (ordered (p :: stack)));
        [| |by apply ordered_push|exact Hwalk].
      * intros text s. by apply ordered_same_records.
      * intros fk q s err' s' Hfk Hq Hs Hcall.
        destruct (Htargets fk q Hfk Hq) as [Hq' Hedge].
        eapply IH; [exact Hq'| |exact Hs|exact Hcall].
        intros s0 [Hs0|Hs0]%elem_of_cons; [subst s0; split; [done|by apply tc_once]|].
        destruct (Hstack s0 Hs0). split; [done|by eapply tc_r].
Qed.

End Order.

(** ** Fuel *)

Lemma walkForeignKeys_more recurse recurse' table record fks :
  (forall t v st out, recurse t v st = Done out -> recurse' t v st = Done out) ->
  forall st st',
    walkForeignKeys recurse table record fks st = Done st' ->
    walkForeignKeys recurse' table record fks st = Done st'.
Proof.
  intros Hmore. induction fks as [|fk fks IH]; intros st st'; simpl; [done|].
  destruct (followForeignKey recurse table record fk st) as [st1| |] eqn:Hstep; [|done..].
  intros Hrest. assert (followForeignKey recurse' table record fk st = Done st1) as ->; [|eauto].
  revert Hstep. unfold followForeignKey.
  destruct (columnIndex _ _) as [i|]; [|done].
  destruct (Values record !! i) as [v|]; [|done].
  case_decide; [done|].
  destruct (recurse (ForeignTableName fk) v st) as [out| |] eqn:Hcall; [|done..].
  by rewrite (Hmore _ _ _ _ Hcall).
Qed.

(** A call that returns returns the same with more fuel. *)
Lemma exportRecord_more e fuel : forall fuel' table id st out,
  fuel <= fuel' ->
  exportRecord e fuel table id st = Done out ->
  exportRecord e fuel' table id st = Done out.
Proof.
  induction fuel as [|fuel IH]; intros [|fuel'] table id st out Hle; [done|done|lia|].
  simpl. case_decide; [done|].
  destruct (getPrimaryKeyColumn e table) as [pk|]; [|done].
  destruct (getForeignKeys e table) as [fks|]; [|done].
  destruct (fetchRecord e table pk id) as [[r|]|]; [|done..].
  destruct (walkForeignKeys (exportRecord e fuel) _ _ _ _) as [st''| |] eqn:Hwalk; [|done..].
  erewrite walkForeignKeys_more; [done| |exact Hwalk].
  intros t v s o. apply IH. lia.
Qed.

Lemma Export_more e fuel fuel' table id st out :
  fuel <= fuel' ->
  Export e fuel table id st = Done out ->
  Export e fuel' table id st = Done out.
Proof.
  intros Hle. unfold Export.
  destruct (exportRecord e fuel table id _) as [o| |] eqn:Hrun; [|done..].
  by rewrite (exportRecord_more _ _ _ _ _ _ _ Hle Hrun).
Qed.

Lemma observe_Export_more e fuel fuel' table id st out :
  fuel <= fuel' ->
  observe (Export e fuel table id st) = Done out ->
  observe (Export e fuel' table id st) = Done out.
Proof.
  intros Hle. destruct (Export e fuel table id st) as [o| |] eqn:Hrun; [|done..].
  by rewrite (Export_more _ _ _ _ _ _ _ Hle Hrun).
Qed.

(** ** Reference graphs given by a finite list of requests *)

Section Closed.

Variable e : Engine.
Variable root : Request.
Variable nodes : list Request.
Hypothesis root_in : root ∈ nodes.
Hypothesis closed : Forall (fun p => targets e p ⊆ nodes) nodes.

Lemma closed_reachable p : reachable e root p -> p ∈ nodes.
Proof.
  revert p. apply rtc_ind_r; [done|]. intros p q _ Hedge Hp.
  rewrite Forall_forall in closed. by apply (closed p Hp).
Qed.

Lemma closed_rows :
  forall p r, reachable e root p -> fetched e p = Some r -> r ∈ omap (fetched e) nodes.
Proof.
  intros p r Hp Hf. apply list_elem_of_omap. exists p. split; [by apply closed_reachable|done].
Qed.

(** A rank that falls along every reference excludes cycles. *)
Lemma closed_acyclic (rank : string -> nat) :
  Forall (fun p => Forall (fun q => rank (keyOf q) < rank (keyOf p)) (targets e p)) nodes ->
  acyclicFrom e root.
Proof.
  intros Hrank p q Hp Hpq.
  assert (rank (keyOf q) < rank (keyOf p)); [|intros Heq; rewrite Heq in *; lia].
  apply closed_reachable in Hp. rewrite Forall_forall in Hrank, closed.
  induction Hpq as [p q Hpq|p q z Hpq Hqz IH].
  - specialize (Hrank p Hp). rewrite Forall_forall in Hrank. by apply Hrank.
  - specialize (Hrank p Hp). rewrite Forall_forall in Hrank.
    specialize (Hrank q Hpq). specialize (IH (closed p Hp q Hpq)). lia.
Qed.

Lemma closed_oneKeyPerRow :
  Forall (fun p => Forall (fun p' =>
            is_Some (fetched e p) -> fetched e p = fetched e p' -> keyOf p = keyOf p')
          nodes) nodes ->
  oneKeyPerRow e root.
Proof.
  intros Hkeys p p' r Hp Hp' Hf Hf'. rewrite Forall_forall in Hkeys.
  specialize (Hkeys p (closed_reachable p Hp)). rewrite Forall_forall in Hkeys.
  apply (Hkeys p' (closed_reachable p' Hp')); [by rewrite Hf|by rewrite Hf, Hf'].
Qed.

End Closed.

(** ** The export *)

Lemma Export_success e fuel table id st recs st' :
  Export e fuel table id st = Done (recs, None, st') ->
  exportRecord e fuel table id {| visited := ∅; records := []; stdout := stdout st |}
    = Done (None, st') /\ recs = records st'.
Proof.
  unfold Export. destruct (exportRecord _ _ _ _ _) as [[[err|] s]| |]; [done| |done..].
  by intros [= <- <-].
Qed.

Lemma Export_last e fuel table id st recs st' :
  Export e fuel table id st = Done (recs, None, st') ->
  exists r, fetched e (table, id) = Some r /\ last recs = Some r.
Proof.
  intros [Hrun ->]%Export_success.
  apply exportRecord_Done in Hrun
    as [(Hin & _)|[(_ & _ & [err [=]] & _)|(_ & fuel' & r & fks & st'' & _ & Hf & _ & _ & _ & ->)]].
  - simpl in Hin. set_solver.
  - exists r. split; [done|]. simpl. apply last_snoc.
Qed.


(** Scenarios A and B. *)
Example scenario_A :
  observe (Export Scenario.blog 1 "users" (VInt 1) initial)
    = Done ([Scenario.user1], None, []).
Proof. by vm_compute. Qed.

Example scenario_B :
  observe (Export Scenario.blog 2 "posts" (VInt 100) initial)
    = Done ([Scenario.user1; Scenario.post100], None, []).
Proof. by vm_compute. Qed.


Lemma blog_closed :
  Forall (fun p => targets Scenario.blog p ⊆ [("posts", VInt 100); ("users", VInt 1)])
    [("posts", VInt 100); ("users", VInt 1)].
Proof.
  each_element.
  - assert (targets Scenario.blog ("posts", VInt 100) = [("users", VInt 1)]) as ->
      by (by vm_compute).
    set_solver.
  - assert (targets Scenario.blog ("users", VInt 1) = []) as -> by (by vm_compute).
    set_solver.
Qed.


(** The records of a successful export are the rows of reachable requests
    with pairwise distinct keys. *)
Lemma Export_requests e fuel table id st recs st' :
  Export e fuel table id st = Done (recs, None, st') ->
  exists origins,
    Forall2 (fun p r => fetched e p = Some r) origins recs /\
    NoDup (keyOf <$> origins) /\
    Forall (reachable e (table, id)) origins.
Proof.
  intros [Hrun ->]%Export_success.
  destruct (exportRecord_exported e (table, id) fuel (table, id) _ _ _ (rtc_refl _ _) Hrun)
    as [[_ (origins & new & Hrecs & Hrows & Hdup & Horigins)] _].
  simpl in Hrecs. rewrite Hrecs. exists origins. split_and!; [done..|].
  eapply Forall_impl; [exact Horigins|]. by intros p [? _].
Qed.

(** When every reachable row is asked for under one key, no record is
    exported twice. *)
Lemma Export_no_duplicates e fuel table id st recs st' :
  oneKeyPerRow e (table, id) ->
  Export e fuel table id st = Done (recs, None, st') ->
  NoDup recs.
Proof.
  intros Hone (origins & Hrows & Hdup & Hreach)%Export_requests.
  apply NoDup_alt. intros i j r Hi Hj.
  destruct (Forall2_lookup_r _ _ _ _ _ Hrows Hi) as (p & Hp & Hf).
  destruct (Forall2_lookup_r _ _ _ _ _ Hrows Hj) as (p' & Hp' & Hf').
  rewrite Forall_forall in Hreach.
  assert (keyOf p = keyOf p') as Hkey.
  { eapply Hone; [| |exact Hf|exact Hf']; apply Hreach; by eapply list_elem_of_lookup_2. }
  eapply NoDup_lookup; [exact Hdup| |]; rewrite list_lookup_fmap.
  - by rewrite Hp.
  - by rewrite Hp', Hkey.
Qed.

(** C2 fails on the code.  The caller names the root of a self-referential
    row by the string of its uuid, the driver hands the same key back as a
    byte slice, and the two print to different visited keys: the row is
    walked a second time and exported twice. *)
Theorem uuid_root_exported_twice :
  keyOf ("nodes", VString "a0ee") = "nodes:a0ee" /\
  keyOf ("nodes", VBytes "a0ee") = "nodes:[97 48 101 101]" /\
  observe (Export Scenario.uuidTree 3 "nodes" (VString "a0ee") initial) =
    Done ([Scenario.uuidNode; Scenario.uuidNode], None, []) /\
  primaryKeyValue Scenario.uuidTree Scenario.uuidNode = Some (VBytes "a0ee") /\
  ~ NoDup ((fun r => (Table r, primaryKeyValue Scenario.uuidTree r))
             <$> [Scenario.uuidNode; Scenario.uuidNode]).
Proof.
  split_and!; [by vm_compute..|].
  intros Hdup. apply NoDup_cons in Hdup as [Hnotin _]. apply Hnotin, list_elem_of_here.
Qed.






(** C5.  A request whose key is visited returns at once and leaves the
    state as it is.  A request walks its foreign keys from the state in
    which its own key is already marked.  The self-referential row of
    scenario C is exported once.  And when the rows reachable from the
    root are finitely many, [Export] returns for every amount of fuel from
    some amount on. *)
Theorem visited_keys_cut_cycles :
  (forall e fuel table id st,
      recordKey table id ∈ visited st ->
      exportRecord e (S fuel) table id st = Done (None, st)) /\
  (forall e fuel table id st record fks,
      recordKey table id ∉ visited st ->
      fetched e (table, id) = Some record ->
      getForeignKeys e table = Ok fks ->
      exportRecord e (S fuel) table id st =
      match walkForeignKeys (exportRecord e fuel) table record fks
              (markVisited (recordKey table id) st) with
      | Done st => Done (None, appendRecord record st)
      | Panic => Panic
      | OutOfFuel => OutOfFuel
      end) /\
  (forall fuel,
      2 <= fuel ->
      observe (Export Scenario.tree fuel "nodes" (VInt 5) initial)
        = Done ([Scenario.node5], None, [])) /\
  (forall e table id (rows : list Record_),
      (forall p r, reachable e (table, id) p -> fetched e p = Some r -> r ∈ rows) ->
      exists enough, forall fuel st,
        enough <= fuel ->
        exists recs err st', Export e fuel table id st = Done (recs, err, st')).
Proof.
  split_and!.
  - apply exportRecord_visited.
  - apply exportRecord_walks.
  - intros fuel Hfuel. eapply observe_Export_more; [exact Hfuel|]. by vm_compute.
  - intros e table id rows Hrows.
    set (keys := {[keyOf (table, id)]}
                   ∪ list_to_set (keyOf <$> (rows ≫= recordTargets e)) : gset string).
    exists (S (size keys)). intros fuel st Hfuel. unfold Export.
    destruct (exportRecord_returns e (table, id) keys (reachable_keys e (table, id) rows Hrows)
                fuel (table, id) {| visited := ∅; records := []; stdout := stdout st |})
      as (err & st' & Hrun); [apply rtc_refl| |].
    + simpl. assert (size (keys ∖ ∅) <= size keys); [|lia].
      apply subseteq_size. set_solver.
    + cbn [fst snd] in Hrun. rewrite Hrun. destruct err; eauto.
Qed.

Lemma tree_closed :
  Forall (fun p => targets Scenario.tree p ⊆ [("nodes", VInt 5)]) [("nodes", VInt 5)].
Proof.
  each_element.
  assert (targets Scenario.tree ("nodes", VInt 5) = [("nodes", VInt 5)]) as ->
    by (by vm_compute).
  set_solver.
Qed.

(** Scenario C has one reachable row, so its export returns. *)
Lemma visited_keys_cut_cycles_witness :
  exists enough, forall fuel st,
    enough <= fuel ->
    exists recs err st', Export Scenario.tree fuel "nodes" (VInt 5) st = Done (recs, err, st').
Proof.
  destruct visited_keys_cut_cycles as (_ & _ & _ & Hreturns).
  apply (Hreturns Scenario.tree "nodes" (VInt 5)
           (omap (fetched Scenario.tree) [("nodes", VInt 5)])).
  apply (closed_rows _ _ [("nodes", VInt 5)] (list_elem_of_here _ _) tree_closed).
Defined.



(** * Further properties of the exporter *)

(** ** Index safety *)

Lemma walkForeignKeys_no_panic recurse table record fks :
  wellFormed record ->
  (forall t v st, recurse t v st <> Panic) ->
  forall st, walkForeignKeys recurse table record fks st <> Panic.
Proof.
  intros Hwf Hrec. induction fks as [|fk fks IH]; intros st; simpl; [done|].
  destruct (fkTarget record fk) as [q|] eqn:Hq.
  - rewrite (followForeignKey_target _ _ _ _ _ _ Hq).
    destruct (recurse q.1 q.2 st) as [[[err|] st']| |] eqn:Hcall; try done.
    by apply Hrec in Hcall.
  - by rewrite followForeignKey_skip.
Qed.

(** The index expression [record.Values[colIndex]] of [exportRecord] is
    always in range: a fetched record has as many values as columns, so
    neither [exportRecord] nor [Export] ever panics. *)
Theorem export_never_panics e fuel table id st :
  exportRecord e fuel table id st <> Panic /\ Export e fuel table id st <> Panic.
Proof.
  assert (forall fuel table id st, exportRecord e fuel table id st <> Panic) as Hnever.
  { clear. intros fuel. induction fuel as [|fuel IH]; intros table id st; simpl; [done|].
    case_decide; [done|].
    destruct (getPrimaryKeyColumn e table) as [pk|]; [|done].
    destruct (getForeignKeys e table) as [fks|]; [|done].
    destruct (fetchRecord e table pk id) as [[r|]|] eqn:Hrow; [|done..].
    destruct (walkForeignKeys _ _ _ _ _) as [s| |] eqn:Hwalk; [done| |done].
    eapply walkForeignKeys_no_panic in Hwalk; [done| |exact IH].
    by apply fetchRecord_Some in Hrow as [_ ?]. }
  split; [apply Hnever|]. unfold Export.
  destruct (exportRecord _ _ _ _ _) as [[[err|] s]| |] eqn:Hrun; try done.
  by apply Hnever in Hrun.
Qed.

(** ** What an export contains *)

Lemma fetchRecord_columns e table pkColumn id record :
  fetchRecord e table pkColumn id = Ok (Some record) ->
  getTableColumns e table = Ok (Columns record).
Proof.
  unfold fetchRecord. destruct (getTableColumns e table) as [cols|]; [|done].
  destruct (queryRow e cols table pkColumn id) as [[|vals rest]|]; [done| |done].
  case_decide; [|done]. by intros [= <-].
Qed.

(** The records of a successful export are, position by position, the rows
    of requests that are reachable from the root and carry pairwise
    distinct visited keys: no request key is exported twice. *)
Theorem export_rows_of_distinct_requests e fuel table id st recs st' :
  Export e fuel table id st = Done (recs, None, st') ->
  exists origins,
    Forall2 (fun p r => fetched e p = Some r) origins recs /\
    NoDup (keyOf <$> origins) /\
    Forall (reachable e (table, id)) origins.
Proof. apply Export_requests. Qed.

Lemma export_rows_of_distinct_requests_witness :
  exists origins,
    Forall2 (fun p r => fetched Scenario.mutual p = Some r) origins
      [Scenario.author1; Scenario.post100] /\
    NoDup (keyOf <$> origins) /\
    Forall (reachable Scenario.mutual ("posts", VInt 100)) origins.
Proof.
  apply (export_rows_of_distinct_requests Scenario.mutual 3 "posts" (VInt 100) initial
           [Scenario.author1; Scenario.post100]
           {| visited := {["users:1"; "posts:100"]};
              records := [Scenario.author1; Scenario.post100]; stdout := [] |}).
  vm_compute. reflexivity.
Defined.

(** Every record of a successful export has as many values as columns, and
    its columns are the columns the catalogue lists for its table. *)
Theorem exported_records_are_well_formed e fuel table id st recs st' :
  Export e fuel table id st = Done (recs, None, st') ->
  Forall (fun r => length (Values r) = length (Columns r) /\
                   getTableColumns e (Table r) = Ok (Columns r)) recs.
Proof.
  intros (origins & Hrows & _)%Export_requests.
  apply Forall_forall. intros r Hr.
  apply list_elem_of_lookup_1 in Hr as [i Hi].
  destruct (Forall2_lookup_r _ _ _ _ _ Hrows Hi) as (p & _ & Hf).
  apply fetched_Some in Hf as [Hrow _].
  apply rowOf_Some in Hrow as (Htable & Hwf & pk & _ & Hfetch).
  split; [exact Hwf|]. rewrite Htable. by eapply fetchRecord_columns.
Qed.

Lemma exported_records_are_well_formed_witness :
  Forall (fun r => length (Values r) = length (Columns r) /\
                   getTableColumns Scenario.blog (Table r) = Ok (Columns r))
    [Scenario.user1; Scenario.post100].
Proof.
  apply (exported_records_are_well_formed Scenario.blog 2 "posts" (VInt 100) initial
           [Scenario.user1; Scenario.post100]
           {| visited := {["users:1"; "posts:100"]};
              records := [Scenario.user1; Scenario.post100]; stdout := [] |}).
  vm_compute. reflexivity.
Defined.

(** A request walked once is settled for the session: whether the first
    call exported the row or failed, a second call for the same table and
    id returns at once, without an error, and leaves the state as it is. *)
Theorem second_walk_is_silent e fuel fuel' table id st err st' :
  exportRecord e fuel table id st = Done (err, st') ->
  exportRecord e (S fuel') table id st' = Done (None, st').
Proof.
  intros Hrun. apply exportRecord_visited.
  by destruct (exportRecord_exported e (table, id) fuel (table, id) st err st'
                 (rtc_refl _ _) Hrun) as [_ Hkey].
Qed.

Lemma second_walk_is_silent_witness :
  exportRecord Scenario.orphaned 1 "users" (VInt 1)
    (markVisited "users:1" initial) = Done (None, markVisited "users:1" initial).
Proof.
  apply (second_walk_is_silent Scenario.orphaned 1 0 "users" (VInt 1) initial
           (Some (ErrNew "record not found: users.id = 1"))).
  vm_compute. reflexivity.
Defined.

(** ** Escaping *)

(** [escapeSQLString] is injective, and so is [formatValue] on strings: two
    different strings are never written as the same constant. *)
Theorem escapeSQLString_injective s t :
  (escapeSQLString s = escapeSQLString t -> s = t) /\
  (formatValue (VString s) = formatValue (VString t) -> s = t).
Proof.
  assert (escapeSQLString s = escapeSQLString t -> s = t) as Hinj.
  { intros Heq. pose proof (readBody_escaped_escape s) as Hs.
    rewrite Heq, readBody_escaped_escape in Hs. by injection Hs. }
  split; [exact Hinj|]. intros Heq.
  assert (Literal.parse true (formatValue (VString s))
          = Literal.parse true (formatValue (VString t))) as Hparse by (by rewrite Heq).
  rewrite !parse_formatted, !readBody_escaped_escape in Hparse. by injection Hparse.
Qed.

(** ** Completeness and warnings *)

(** As [walkForeignKeys_invariant], with the warning of a failed call
    taken together with the call. *)
Lemma walkForeignKeys_steps (P : State -> Prop) recurse table record fks :
  (forall fk q st err st',
      fk ∈ fks -> fkTarget record fk = Some q -> P st ->
      recurse q.1 q.2 st = Done (err, st') ->
      P (match err with
         | None => st'
         | Some err => Printf (fkWarning table fk err) st'
         end)) ->
  forall st st',
    P st -> walkForeignKeys recurse table record fks st = Done st' -> P st'.
Proof.
  induction fks as [|fk fks IH]; intros Hcall st st' HP; simpl.
  - by intros [= <-].
  - destruct (followForeignKey recurse table record fk st) as [st1| |] eqn:Hstep; [|done..].
    apply IH; [intros; eapply Hcall; eauto using list_elem_of_further|].
    apply followForeignKey_Done in Hstep as [[_ ->]|(q & err & st2 & Hq & Hrec & ->)]; [done|].
    eapply Hcall; eauto using list_elem_of_here.
Qed.

Section Settled.

Variable e : Engine.
Variable root : Request.

Local Abbreviation settled := (settled e root).

Lemma settled_refl st : settled st st.
Proof.
  split_and!; [done|done| |intros k Hin Hout; done].
  exists []. rewrite app_nil_r. split; [done|]. intros r q Hr. by apply elem_of_nil in Hr.
Qed.

Lemma settled_trans st1 st2 st3 : settled st1 st2 -> settled st2 st3 -> settled st1 st3.
Proof.
  intros (Hv12 & Hl12 & (n12 & Hr12 & Ht12) & Hk12) (Hv23 & Hl23 & (n23 & Hr23 & Ht23) & Hk23).
  split_and!; [set_solver|lia| |].
  - exists (n12 ++ n23). split; [by rewrite Hr23, Hr12, app_assoc|].
    intros r q [Hr|Hr]%elem_of_app Hq; [|by eapply Ht23].
    apply Hv23. by eapply Ht12.
  - intros k Hin Hout. destruct (decide (k ∈ visited st2)) as [Hin2|Hout2].
    + destruct (Hk12 k Hin2 Hout) as (p & Hp & Hreach & [[Hnone Hlen]|(r & Hf & Hr)]);
        exists p; split_and!; [done..| |done|done|].
      * left. split; [done|lia].
      * right. exists r. split; [done|]. rewrite Hr23. apply elem_of_app. by left.
    + destruct (Hk23 k Hin Hout2) as (p & Hp & Hreach & [[Hnone Hlen]|(r & Hf & Hr)]);
        exists p; split_and!; [done..| |done|done|].
      * left. split; [done|lia].
      * right. by exists r.
Qed.

(** A dependency that failed, once its warning is printed. *)
Lemma settled_warned q text st :
  reachable e root q -> fetched e q = None ->
  settled st (Printf text (markVisited (keyOf q) st)).
Proof.
  intros Hq Hnone. split_and!; simpl.
  - set_solver.
  - rewrite length_app. simpl. lia.
  - exists []. rewrite app_nil_r. split; [done|]. intros r q' Hr. by apply elem_of_nil in Hr.
  - intros k Hin Hout. assert (k = keyOf q) as -> by set_solver.
    exists q. split_and!; [done..|]. left. split; [done|]. rewrite length_app. simpl. lia.
Qed.

(** A call that returns without an error settles what it visited. *)
Lemma exportRecord_settled fuel : forall p st st',
  reachable e root p ->
  exportRecord e fuel p.1 p.2 st = Done (None, st') ->
  settled st st'.
Proof.
  induction fuel as [|fuel IH]; intros [table id] st st' Hreach Hrun; [done|].
  apply exportRecord_Done in Hrun
    as [(_ & _ & ->)|[(_ & _ & [err [=]] & _)|(Hnew & fuel' & r & fks & st'' & [= <-] & Hf & Hfks & Hwalk & _ & ->)]];
    cbn [fst snd] in *; [apply settled_refl|].
  set (p := (table, id)) in *. change (recordKey table id) with (keyOf p) in *.
  set (st1 := markVisited (keyOf p) st) in *.
  assert (forall fk q, fk ∈ fks -> fkTarget r fk = Some q -> reachable e root q) as Htargets.
  { intros fk q Hfk Hq. eapply edge_reachable; [exact Hreach|]. by eapply target_edge. }
  assert (settled st1 st'') as Hloop.
  { eapply (walkForeignKeys_steps (settled st1)); [|apply settled_refl|exact Hwalk].
    intros fk q s err s' Hfk Hq Hs Hcall. eapply settled_trans; [exact Hs|].
    destruct err as [err|]; [|apply (IH q s s'); [by eapply Htargets|exact Hcall]].
    apply exportRecord_Done in Hcall
      as [(_ & [=] & _)|[(_ & Hnone & _ & ->)|(_ & ? & ? & ? & ? & _ & _ & _ & _ & [=] & _)]].
    destruct q as [t v]. by apply settled_warned; eauto. }
  assert (forall q, q ∈ recordTargets e r -> keyOf q ∈ visited st'') as Hvisited.
  { intros q Hq.
    eapply recordTargets_elem in Hq as (fk & Hfk & Hq); [|by rewrite (fetched_table _ _ _ Hf)].
    destruct (walkForeignKeys_visits (exportRecord e fuel) table r fks)
      with (st := st1) (st' := st'') as [_ Hv]; [|exact Hwalk|eauto].
    intros fk0 q0 s err' s' Hfk0 Hq0 Hcall. eapply exportRecord_visited_mono; eauto. }
  destruct Hloop as (Hv & Hl & (new & Hrecs & Htarg) & Hkeys).
  split_and!; simpl.
  - subst st1. simpl in Hv. set_solver.
  - by subst st1.
  - exists (new ++ [r]). subst st1. simpl in Hrecs. split; [by rewrite Hrecs, app_assoc|].
    intros r' q [Hr'|Hr'%list_elem_of_singleton]%elem_of_app Hq; [by eapply Htarg|].
    subst r'. by apply Hvisited.
  - intros k Hin Hout. destruct (decide (k = keyOf p)) as [->|Hne].
    + exists p. split_and!; [done..|]. right. exists r. split; [done|].
      apply elem_of_app. right. apply list_elem_of_here.
    + destruct (Hkeys k Hin) as (q & Hq & Hreachq & [[Hnone Hlen]|(r' & Hf' & Hr')]).
      { subst st1. simpl. set_solver. }
      * exists q. split_and!; [done..|]. left. split; [done|]. by subst st1.
      * exists q. split_and!; [done..|]. right. exists r'. split; [done|].
        apply elem_of_app. by left.
Qed.

(** When every reachable request can be fetched, no call fails and nothing
    is printed. *)
Lemma exportRecord_quiet fuel :
  (forall p, reachable e root p -> is_Some (fetched e p)) ->
  forall p st err st',
    reachable e root p ->
    exportRecord e fuel p.1 p.2 st = Done (err, st') ->
    err = None /\ stdout st' = stdout st.
Proof.
  intros Hall. induction fuel as [|fuel IH]; intros [table id] st err st' Hreach Hrun; [done|].
  apply exportRecord_Done in Hrun
    as [(_ & -> & ->)|[(_ & Hnone & _)|(Hnew & fuel' & r & fks & st'' & [= <-] & Hf & Hfks & Hwalk & -> & ->)]];
    cbn [fst snd] in *; [done| |].
  - destruct (Hall _ Hreach) as [r Hr]. congruence.
  - split; [done|]. simpl.
    eapply walkForeignKeys_steps with (P := fun s => stdout s = stdout st)
      (st := markVisited (recordKey table id) st); [|reflexivity|exact Hwalk].
    intros fk q s err s' Hfk Hq Hs Hcall.
    destruct (IH q s err s') as [-> Hout]; [|done|congruence].
    eapply edge_reachable; [exact Hreach|]. by eapply (target_edge e (table, id)).
Qed.

End Settled.

Lemma Export_settled e fuel table id st recs st' :
  Export e fuel table id st = Done (recs, None, st') ->
  settled e (table, id) {| visited := ∅; records := []; stdout := stdout st |} st' /\
  recs = records st'.
Proof.
  intros [Hrun ->]%Export_success. split; [|done].
  apply (exportRecord_settled e (table, id) fuel (table, id)); [apply rtc_refl|exact Hrun].
Qed.

Lemma Export_covers e fuel table id st recs st' :
  Export e fuel table id st = Done (recs, None, st') ->
  sameKeySameRow e (table, id) ->
  forall p, reachable e (table, id) p ->
    keyOf p ∈ visited st' /\ forall r, fetched e p = Some r -> r ∈ recs.
Proof.
  intros Hexport Hsame.
  assert (keyOf (table, id) ∈ visited st') as Hroot.
  { apply Export_success in Hexport as [Hrun _].
    by destruct (exportRecord_visited_mono e (table, id) fuel (table, id) _ _ _
                   (rtc_refl _ _) Hrun). }
  apply Export_settled in Hexport as [(_ & _ & (new & Hrecs & Htargets) & Hkeys) ->].
  simpl in Hrecs. rewrite Hrecs in *.
  assert (forall p, reachable e (table, id) p -> keyOf p ∈ visited st' ->
            forall r, fetched e p = Some r -> r ∈ new) as Hrow.
  { intros p Hp Hin r Hf. destruct (Hkeys _ Hin) as (p' & Hk & Hp' & [[Hnone _]|(r' & Hf' & Hr')]).
    - simpl. set_solver.
    - rewrite (Hsame p' p Hp' Hp Hk) in Hnone. congruence.
    - rewrite (Hsame p' p Hp' Hp Hk) in Hf'. congruence. }
  apply (rtc_ind_r (fun p => keyOf p ∈ visited st' /\ forall r, fetched e p = Some r -> r ∈ new)).
  - split; [done|]. apply Hrow; [apply rtc_refl|done].
  - intros p q Hp Hedge [Hin Hrows].
    assert (reachable e (table, id) q) as Hreach by (by eapply rtc_r).
    unfold edge, targets in Hedge.
    destruct (fetched e p) as [r|] eqn:Hf; [|by apply elem_of_nil in Hedge].
    pose proof (Htargets r q (Hrows r eq_refl) Hedge) as Hq.
    split; [done|]. by apply Hrow.
Qed.

Lemma closed_sameKeySameRow e root (nodes : list Request) :
  root ∈ nodes ->
  Forall (fun p => targets e p ⊆ nodes) nodes ->
  Forall (fun p => Forall (fun p' => keyOf p = keyOf p' -> fetched e p = fetched e p')
                     nodes) nodes ->
  sameKeySameRow e root.
Proof.
  intros Hroot Hclosed Hsame p p' Hp Hp'. rewrite Forall_forall in Hsame.
  specialize (Hsame p (closed_reachable e root nodes Hroot Hclosed p Hp)).
  rewrite Forall_forall in Hsame.
  exact (Hsame p' (closed_reachable e root nodes Hroot Hclosed p' Hp')).
Qed.

Lemma mutual_closed :
  Forall (fun p => targets Scenario.mutual p ⊆ [("posts", VInt 100); ("users", VInt 1)])
    [("posts", VInt 100); ("users", VInt 1)].
Proof.
  each_element.
  - assert (targets Scenario.mutual ("posts", VInt 100) = [("users", VInt 1)]) as ->
      by (by vm_compute).
    set_solver.
  - assert (targets Scenario.mutual ("users", VInt 1) = [("posts", VInt 100)]) as ->
      by (by vm_compute).
    set_solver.
Qed.

Lemma mutual_sameKeySameRow : sameKeySameRow Scenario.mutual ("posts", VInt 100).
Proof.
  apply (closed_sameKeySameRow _ _ [("posts", VInt 100); ("users", VInt 1)]
           (list_elem_of_here _ _) mutual_closed).
  each_element; vm_compute; (done || by intros [=]).
Qed.

Lemma orphaned_closed :
  Forall (fun p => targets Scenario.orphaned p ⊆ [("posts", VInt 100); ("users", VInt 1)])
    [("posts", VInt 100); ("users", VInt 1)].
Proof.
  each_element.
  - assert (targets Scenario.orphaned ("posts", VInt 100) = [("users", VInt 1)]) as ->
      by (by vm_compute).
    set_solver.
  - assert (targets Scenario.orphaned ("users", VInt 1) = []) as -> by (by vm_compute).
    set_solver.
Qed.

Lemma orphaned_sameKeySameRow : sameKeySameRow Scenario.orphaned ("posts", VInt 100).
Proof.
  apply (closed_sameKeySameRow _ _ [("posts", VInt 100); ("users", VInt 1)]
           (list_elem_of_here _ _) orphaned_closed).
  each_element; vm_compute; (done || by intros [=]).
Qed.

(** A successful export is complete: when requests with the same key are
    answered with the same row, the row of every request reachable from the
    root whose lookups succeed is among the records, on cyclic reference
    graphs too. *)
Theorem export_is_complete e fuel table id st recs st' :
  Export e fuel table id st = Done (recs, None, st') ->
  sameKeySameRow e (table, id) ->
  forall p r, reachable e (table, id) p -> fetched e p = Some r -> r ∈ recs.
Proof.
  intros Hexport Hsame p r Hp Hf.
  by destruct (Export_covers _ _ _ _ _ _ _ Hexport Hsame p Hp) as [_ Hrows]; apply Hrows.
Qed.

Lemma export_is_complete_witness :
  Scenario.author1 ∈ [Scenario.author1; Scenario.post100].
Proof.
  apply (export_is_complete Scenario.mutual 3 "posts" (VInt 100) initial
           [Scenario.author1; Scenario.post100]
           {| visited := {["users:1"; "posts:100"]};
              records := [Scenario.author1; Scenario.post100]; stdout := [] |})
    with (p := ("users", VInt 1)).
  - vm_compute. reflexivity.
  - exact mutual_sameKeySameRow.
  - apply rtc_once. unfold edge. vm_compute. apply list_elem_of_here.
  - vm_compute. reflexivity.
Defined.

(** Absent dependencies are never hidden: under the same condition, a
    successful export has printed nothing exactly when every request
    reachable from the root could be fetched; so if some reachable row or
    its catalogue entries are missing, a warning is on the output. *)
Theorem warnings_tell_of_failures e fuel table id st recs st' :
  Export e fuel table id st = Done (recs, None, st') ->
  sameKeySameRow e (table, id) ->
  (stdout st' = stdout st <->
   forall p, reachable e (table, id) p -> is_Some (fetched e p)).
Proof.
  intros Hexport Hsame. split.
  - intros Hquiet p Hp.
    destruct (Export_covers _ _ _ _ _ _ _ Hexport Hsame p Hp) as [Hin _].
    apply Export_settled in Hexport as [(_ & _ & _ & Hkeys) _].
    destruct (Hkeys _ Hin) as (p' & Hk & Hp' & [[_ Hlen]|(r & Hf & _)]).
    + simpl. set_solver.
    + simpl in Hlen. rewrite Hquiet in Hlen. lia.
    + rewrite <- (Hsame p' p Hp' Hp Hk). by rewrite Hf.
  - intros Hall. apply Export_success in Hexport as [Hrun _].
    by destruct (exportRecord_quiet e (table, id) fuel Hall (table, id) _ _ _
                   (rtc_refl _ _) Hrun) as [_ ?].
Qed.

Lemma warnings_tell_of_failures_witness :
  ([fkWarning "posts" (Memory.fk "posts" "user_id" "users" "id")
      (ErrNew "record not found: users.id = 1")] = [] <->
   forall p, reachable Scenario.orphaned ("posts", VInt 100) p ->
             is_Some (fetched Scenario.orphaned p)).
Proof.
  apply (warnings_tell_of_failures Scenario.orphaned 2 "posts" (VInt 100) initial
           [Scenario.post100]
           {| visited := {["users:1"; "posts:100"]}; records := [Scenario.post100];
              stdout := [fkWarning "posts" (Memory.fk "posts" "user_id" "users" "id")
                           (ErrNew "record not found: users.id = 1")] |}).
  - vm_compute. reflexivity.
  - exact orphaned_sameKeySameRow.
Defined.

Lemma Export_no_duplicates_witness : NoDup [Scenario.user1; Scenario.post100].
Proof.
  apply (Export_no_duplicates Scenario.blog 2 "posts" (VInt 100) initial
           [Scenario.user1; Scenario.post100]
           {| visited := {["users:1"; "posts:100"]};
              records := [Scenario.user1; Scenario.post100]; stdout := [] |}).
  - apply (closed_oneKeyPerRow _ _ [("posts", VInt 100); ("users", VInt 1)]);
      [apply list_elem_of_here|apply blog_closed|].
    each_element; vm_compute; (done || by intros _ [=]).
  - vm_compute. reflexivity.
Defined.

(** ** The caller *)

Example parseID_examples :
  parseID "123" = VInt 123 /\ parseID "007" = VInt 7 /\ parseID "+7" = VInt 7 /\
  parseID "-7" = VInt (-7) /\ parseID "" = VString "" /\ parseID "+" = VString "+" /\
  parseID " 7" = VString " 7" /\ parseID "a0ee" = VString "a0ee" /\
  parseID "9223372036854775807" = VInt 9223372036854775807 /\
  parseID "9223372036854775808" = VString "9223372036854775808".
Proof. repeat split; reflexivity. Qed.

Lemma string_of_uint_head d :
  d <> Decimal.Nil ->
  exists c rest, NilZero.string_of_uint d = String c rest /\ c <> "+"%char /\ c <> "-"%char.
Proof. destruct d; [done|intros _; simpl; eexists _, _; split_and!; [reflexivity|done..]..]. Qed.

Lemma Atoi_fmtInt n : (- 2 ^ 63 <= n < 2 ^ 63)%Z -> Atoi (Go.fmtInt n) = Some n.
Proof.
  intros Hrange. unfold Atoi, Go.fmtInt.
  assert (forall p, Z.of_uint <$> NilZero.uint_of_string (NilZero.string_of_uint (Pos.to_uint p))
                    = Some (Z.pos p)) as Hpos.
  { intros p. rewrite NilZero.usu by apply DecimalPos.Unsigned.to_uint_nonnil.
    simpl. f_equal. unfold Z.of_uint. by rewrite DecimalPos.Unsigned.of_to. }
  destruct n as [|p|p]; cbn [Z.to_int NilZero.string_of_int].
  - reflexivity.
  - destruct (string_of_uint_head (Pos.to_uint p)) as (c & rest & Heq & Hplus & Hminus);
      [apply DecimalPos.Unsigned.to_uint_nonnil|].
    pose proof (Hpos p) as Hp. rewrite Heq in Hp |- *.
    rewrite !decide_False by done. rewrite Hp. cbn [mbind option_bind].
    by rewrite decide_True.
  - rewrite decide_False by done. rewrite decide_True by done.
    rewrite Hpos. cbn [fmap option_fmap option_map mbind option_bind Z.opp].
    by rewrite decide_True.
Qed.

(** A root named by the decimal text of an integer key is handed to
    [Export] as that integer, so it is walked under the visited key that a
    foreign key holding the same integer has; any text [strconv.Atoi]
    rejects is handed on as the string it is. *)
Theorem parseID_reads_integer_keys :
  (forall n table,
      (- 2 ^ 63 <= n < 2 ^ 63)%Z ->
      parseID (fmtV (VInt n)) = VInt n /\
      recordKey table (parseID (fmtV (VInt n))) = recordKey table (VInt n)) /\
  (forall idStr table,
      Atoi idStr = None ->
      parseID idStr = VString idStr /\
      recordKey table (parseID idStr) = table +:+ ":" +:+ idStr).
Proof.
  split.
  - intros n table Hrange. unfold parseID. simpl. by rewrite Atoi_fmtInt.
  - intros idStr table Hnone. unfold parseID. by rewrite Hnone.
Qed.

Lemma parseID_reads_integer_keys_witness :
  parseID "100" = VInt 100 /\ parseID "a0ee" = VString "a0ee".
Proof.
  destruct parseID_reads_integer_keys as [Hint Hstr]. split.
  - apply (Hint 100%Z "posts"). lia.
  - apply (Hstr "a0ee" "nodes"). reflexivity.
Defined.

Lemma tableCounts_snoc recs r :
  tableCounts (recs ++ [r]) =
  <[Table r := S (default 0 (tableCounts recs !! Table r))]> (tableCounts recs).
Proof. unfold tableCounts. by rewrite fold_left_app. Qed.

Lemma tableCounts_lookup recs table :
  tableCounts recs !! table =
  match length (filter (fun r => Table r = table) recs) with
  | O => None
  | S n => Some (S n)
  end.
Proof.
  induction recs as [|r recs IH] using rev_ind; [done|].
  rewrite tableCounts_snoc, filter_app, length_app, filter_cons, filter_nil.
  destruct (decide (Table r = table)) as [->|Hne].
  - rewrite lookup_insert_eq, IH. simpl.
    destruct (length (filter _ recs)) as [|n]; simpl; [done|]. by rewrite Nat.add_1_r.
  - rewrite lookup_insert_ne by done. rewrite IH. simpl. by rewrite Nat.add_0_r.
Qed.

(** The export summary: a table is listed exactly when some record belongs
    to it, with the number of its records, and the counts listed add up to
    the number of records found. *)
Theorem tableCounts_summary recs :
  (forall table n,
      tableCounts recs !! table = Some n <->
      0 < n /\ n = length (filter (fun r => Table r = table) recs)) /\
  map_fold (fun _ n total => n + total) 0 (tableCounts recs) = length recs.
Proof.
  split.
  - intros table n. rewrite tableCounts_lookup.
    destruct (length (filter _ recs)) as [|m]; split; try done; try lia.
    + intros [= <-]. lia.
    + by intros [_ ->].
  - induction recs as [|r recs IH] using rev_ind; [done|].
    rewrite tableCounts_snoc, length_app. simpl.
    assert (forall (m : gmap string nat) k v,
              m !! k = None ->
              map_fold (fun _ n total => n + total) 0 (<[k:=v]> m)
              = v + map_fold (fun _ n total => n + total) 0 m) as Hfresh.
    { intros m k v Hk. apply (map_fold_insert_L (fun _ n total => n + total)); [|done].
      intros; lia. }
    destruct (tableCounts recs !! Table r) as [n|] eqn:Hn; simpl.
    + rewrite <- (insert_delete_id (tableCounts recs) (Table r) n) in IH by done.
      rewrite Hfresh in IH by apply lookup_delete_eq.
      rewrite <- insert_delete_eq. rewrite Hfresh by apply lookup_delete_eq. lia.
    + rewrite Hfresh by done. lia.
Qed.

(** * Ports and the agent registry *)

Lemma intAdd_exact a b : isInt (a + b) -> intAdd a b = (a + b)%Z.
Proof. unfold isInt, intAdd, wrapInt. intros H. Z.div_mod_to_equations. lia. Qed.

Lemma intAdd_cancel h s1 s2 : isInt s1 -> isInt s2 -> intAdd h s1 = intAdd h s2 -> s1 = s2.
Proof. unfold isInt, intAdd, wrapInt. intros H1 H2 Heq. Z.div_mod_to_equations. lia. Qed.

Lemma GetAllPorts_lookup c agentID serviceName :
  Config.GetAllPorts c agentID !! serviceName =
  match Config.Services (Config.Docker c) !! serviceName with
  | None => None
  | Some service =>
      match Config.Ports service with
      | [] => None
      | first :: _ => Some (intAdd (Config.HostBase first) agentID)
      end
  end.
Proof.
  unfold Config.GetAllPorts.
  apply (map_fold_weak_ind
           (fun ports services =>
              ports !! serviceName =
              match services !! serviceName with
              | None => None
              | Some service =>
                  match Config.Ports service with
                  | [] => None
                  | first :: _ => Some (intAdd (Config.HostBase first) agentID)
                  end
              end)); [done|].
  intros name service services ports Hfresh IH.
  destruct (decide (name = serviceName)) as [->|Hne].
  - rewrite lookup_insert_eq. rewrite Hfresh in IH.
    destruct (Config.Ports service); [done|by rewrite lookup_insert_eq].
  - rewrite lookup_insert_ne by done.
    destruct (Config.Ports service); [done|by rewrite lookup_insert_ne].
Qed.

(** [GetAllPorts] and [GetServicePort] agree: a service is in the map
    exactly when it is configured with at least one port mapping, the map
    holds for it what [GetServicePort] returns, and for any other name
    [GetServicePort] returns 0. *)
Theorem port_functions_agree c agentID serviceName :
  (forall port, Config.GetAllPorts c agentID !! serviceName = Some port ->
                Config.GetServicePort c serviceName agentID = port) /\
  (Config.GetAllPorts c agentID !! serviceName = None ->
   Config.GetServicePort c serviceName agentID = 0%Z) /\
  (is_Some (Config.GetAllPorts c agentID !! serviceName) <->
   exists service, Config.Services (Config.Docker c) !! serviceName = Some service /\
                   Config.Ports service <> []).
Proof.
  rewrite GetAllPorts_lookup. unfold Config.GetServicePort.
  destruct (Config.Services (Config.Docker c) !! serviceName) as [service|].
  - destruct (Config.Ports service) as [|first rest] eqn:Hports.
    + split_and!; [done|done|]. split; [by intros [? [=]]|].
      intros (s & [= <-] & Hne). congruence.
    + split_and!; [by intros ? [= <-]|done|]. split; [|by eexists].
      intros _. exists service. split; [done|]. by rewrite Hports.
  - split_and!; [done|done|]. split; [by intros [? [=]]|by intros (? & [=] & _)].
Qed.

(** Two different port slots never give a service the same host port. *)
Theorem slots_give_different_ports c serviceName slot1 slot2 port1 port2 :
  isInt slot1 -> isInt slot2 -> slot1 <> slot2 ->
  Config.GetAllPorts c slot1 !! serviceName = Some port1 ->
  Config.GetAllPorts c slot2 !! serviceName = Some port2 ->
  port1 <> port2.
Proof.
  intros H1 H2 Hne. rewrite !GetAllPorts_lookup.
  destruct (Config.Services (Config.Docker c) !! serviceName) as [service|]; [|done].
  destruct (Config.Ports service) as [|first rest]; [done|].
  intros [= <-] [= <-] Heq. by apply Hne, (intAdd_cancel (Config.HostBase first)).
Qed.

Lemma slots_give_different_ports_witness : (8001 <> 8002)%Z.
Proof.
  apply (slots_give_different_ports webConfig "backend" 1 2 8001 8002);
    try (unfold isInt; lia); by vm_compute.
Defined.

Lemma size_list_to_set_le (l : list Z) : size (list_to_set l : gset Z) <= length l.
Proof.
  induction l as [|x l IH]; [by rewrite list_to_set_nil, size_empty|].
  rewrite list_to_set_cons, length_cons.
  destruct (decide (x ∈ (list_to_set l : gset Z))) as [Hin|Hout].
  - assert ({[x]} ∪ list_to_set l = (list_to_set l : gset Z)) as -> by set_solver. lia.
  - rewrite size_union by set_solver. rewrite size_singleton. lia.
Qed.

Lemma usedSlots_elem r slot :
  slot ∈ Registry.usedSlots r <->
  exists id agent, Registry.Agents r !! id = Some agent /\ Registry.PortSlot agent = slot.
Proof. unfold Registry.usedSlots. by rewrite elem_of_map_to_set. Qed.

Lemma usedSlots_size r : size (Registry.usedSlots r) <= size (Registry.Agents r).
Proof.
  unfold Registry.usedSlots, map_to_set. etrans; [apply size_list_to_set_le|].
  by rewrite length_fmap, length_map_to_list.
Qed.

Lemma findSlot_not_used used fuel : forall slot found,
  Registry.findSlot fuel used slot = Some found -> found ∉ used.
Proof.
  induction fuel as [|fuel IH]; intros slot found; simpl; [done|].
  case_decide; [apply IH|]. by intros [= <-].
Qed.

Lemma findSlot_least used fuel : forall slot,
  (1 <= slot)%Z ->
  (slot + Z.of_nat (size (filter (fun s => (slot <= s)%Z) used)) < 2 ^ 63)%Z ->
  size (filter (fun s => (slot <= s)%Z) used) < fuel ->
  exists found,
    Registry.findSlot fuel used slot = Some found /\
    (slot <= found)%Z /\ (found ∉ used) /\
    forall s, (slot <= s < found)%Z -> s ∈ used.
Proof.
  induction fuel as [|fuel IH]; intros slot Hpos Hroom Hfuel; [lia|]. simpl.
  destruct (decide (slot ∈ used)) as [Hin|Hout].
  - assert (filter (fun s => (slot + 1 <= s)%Z) used
            = filter (fun s => (slot <= s)%Z) used ∖ {[slot]}) as Hrest.
    { apply set_eq. intros x.
      rewrite elem_of_difference, !elem_of_filter, elem_of_singleton. naive_solver lia. }
    assert (size (filter (fun s => (slot <= s)%Z) used)
            = S (size (filter (fun s => (slot + 1 <= s)%Z) used))) as Hsize.
    { assert ({[slot]} ⊆ filter (fun s => (slot <= s)%Z) used) as Hsub.
      { apply singleton_subseteq_l, elem_of_filter. split; [lia|done]. }
      rewrite Hrest, size_difference, size_singleton by done.
      apply subseteq_size in Hsub. rewrite size_singleton in Hsub. lia. }
    rewrite intAdd_exact by (unfold isInt; lia).
    destruct (IH (slot + 1)%Z) as (found & Hfind & Hle & Hfree & Hmin); [lia..|].
    exists found. split_and!; [done|lia|done|].
    intros s Hs. destruct (decide (s = slot)) as [->|Hne]; [done|]. apply Hmin. lia.
  - exists slot. split_and!; [done|lia|done|]. intros s Hs. lia.
Qed.




(** [AllocateAgent] with an id that is free returns the new agent, which
    [GetAgent] then finds under that id with the slot and ports given; the
    other ids are answered as before, and removing the id again restores
    the registry.  With an id that is taken it fails and leaves the registry
    as it is. *)
Theorem AllocateAgent_round_trip r agentID branch agentCommand worktreePath ports portSlot now :
  (Registry.Agents r !! agentID = None ->
   exists agent r',
     Registry.AllocateAgent r agentID branch agentCommand worktreePath ports portSlot now
       = (Ok agent, r') /\
     Registry.GetAgent r' agentID = Ok agent /\
     Registry.Name agent = agentID /\
     Registry.PortSlot agent = portSlot /\
     Registry.Ports agent = ports /\
     (forall other, other <> agentID -> Registry.GetAgent r' other = Registry.GetAgent r other) /\
     Registry.RemoveAgent r' agentID = (None, r)) /\
  (is_Some (Registry.Agents r !! agentID) ->
   exists err,
     Registry.AllocateAgent r agentID branch agentCommand worktreePath ports portSlot now
       = (Err err, r)).
Proof.
  unfold Registry.AllocateAgent. split.
  - intros Hfree. rewrite Hfree. eexists _, _. split; [reflexivity|].
    unfold Registry.GetAgent, Registry.RemoveAgent. simpl.
    rewrite lookup_insert_eq. split_and!; try done.
    + intros other Hother. by rewrite lookup_insert_ne.
    + rewrite delete_insert_id by done. unfold Registry.withAgents. simpl. by destruct r.
  - intros [agent Hagent]. rewrite Hagent. by eexists.
Qed.

Lemma AllocateAgent_round_trip_witness :
  (exists agent r',
     Registry.AllocateAgent emptyRegistry "claude1" "main" "claude" "/w/shop-claude1"
       {["backend" := 8001%Z]} 1 "2025-01-01" = (Ok agent, r') /\
     Registry.GetAgent r' "claude1" = Ok agent) /\
  (exists err,
     Registry.AllocateAgent
       (Registry.withAgents emptyRegistry
          {["claude1" := {| Registry.Name := "claude1"; Registry.Branch := "main";
                            Registry.AgentCommand := "claude";
                            Registry.WorktreePath := "/w/shop-claude1";
                            Registry.Ports := ∅; Registry.PortSlot := 1;
                            Registry.CreatedAt := "2025-01-01";
                            Registry.DockerComposeOverride := "";
                            Registry.PID := 0 |}]})
       "claude1" "dev" "codex" "/w/shop-claude1" ∅ 2 "2025-01-02" =
     (Err err,
      Registry.withAgents emptyRegistry
          {["claude1" := {| Registry.Name := "claude1"; Registry.Branch := "main";
                            Registry.AgentCommand := "claude";
                            Registry.WorktreePath := "/w/shop-claude1";
                            Registry.Ports := ∅; Registry.PortSlot := 1;
                            Registry.CreatedAt := "2025-01-01";
                            Registry.DockerComposeOverride := "";
                            Registry.PID := 0 |}]})).
Proof.
  split.
  - destruct (proj1 (AllocateAgent_round_trip emptyRegistry "claude1" "main" "claude"
                       "/w/shop-claude1" {["backend" := 8001%Z]} 1 "2025-01-01") eq_refl)
      as (agent & r' & Halloc & Hget & _).
    by exists agent, r'.
  - apply AllocateAgent_round_trip. by eexists.
Defined.



Lemma AllocateAgent_Ok r agentID branch agentCommand worktreePath ports portSlot now agent r' :
  Registry.AllocateAgent r agentID branch agentCommand worktreePath ports portSlot now
    = (Ok agent, r') ->
  Registry.Agents r !! agentID = None /\
  Registry.Agents r' = <[agentID := agent]> (Registry.Agents r) /\
  Registry.PortSlot agent = portSlot /\ Registry.Ports agent = ports.
Proof.
  unfold Registry.AllocateAgent.
  destruct (Registry.Agents r !! agentID) as [a|] eqn:Ha; [done|].
  by intros [= <- <-].
Qed.



(** What [runExport] gets back from [Export].  Without an error the records
    are not empty and end with the row of the root, so the branch
    [len(records) == 0] of [runExport] is never taken; with an error there
    are no records, the root is what could not be fetched, and no warning
    was printed. *)
Theorem Export_root_decides e fuel table id st recs err st' :
  Export e fuel table id st = Done (recs, err, st') ->
  match err with
  | None =>
      recs <> [] /\
      exists r, fetched e (table, id) = Some r /\ last recs = Some r /\ Table r = table
  | Some _ =>
      recs = [] /\ fetched e (table, id) = None /\ stdout st' = stdout st
  end.
Proof.
  intros Hexport. destruct err as [err|].
  - unfold Export in Hexport.
    destruct (exportRecord e fuel table id _) as [[[err'|] s]| |] eqn:Hrun; [|done..].
    injection Hexport as <- <- <-.
    apply exportRecord_Done in Hrun
      as [(Hin & _)|[(_ & Hnone & _ & ->)|(_ & ? & ? & ? & ? & _ & _ & _ & _ & [=] & _)]].
    + simpl in Hin. set_solver.
    + done.
  - destruct (Export_last _ _ _ _ _ _ _ Hexport) as (r & Hr & Hlast).
    split; [by intros ->|]. exists r. split_and!; [done..|].
    by apply fetched_table in Hr.
Qed.

Lemma Export_root_decides_witness :
  fetched Scenario.orphaned ("users", VInt 1) = None.
Proof.
  apply (Export_root_decides Scenario.orphaned 1 "users" (VInt 1) initial []
           (Some (ErrNew "record not found: users.id = 1"))
           (markVisited "users:1" initial)).
  vm_compute. reflexivity.
Defined.
